(** * The leaf-image validator: [validateLeafImage]

    A shallow embedding of the client-side leaf validator
    (src/unnamed/part_000, lines 98-320) and the properties of its
    guards, its connected-component pass and its soft scoring; with it
    the plant labels of the same file, the size of the decoded grid, the
    result panel (src/components/ResultDisplay.tsx) and the file
    selection of the upload page (src/pages/index.tsx).

    JavaScript numbers are IEEE-754 binary64 values; they are modelled by
    Rocq's primitive floats, whose [+ - * / sqrt] and comparisons are the
    same correctly rounded operations.  Loop counters, array indices and
    pixel counts are integers of [Z] (they stay far below 2^53, where the
    two coincide) and are converted when they meet a float. *)

From Stdlib Require Import ZArith Lia Bool String Ascii.
From Stdlib Require Import Floats.PrimFloat Floats.SpecFloat Floats.FloatOps.
From Stdlib Require Import Floats.FloatAxioms.
From Stdlib Require Numbers.Cyclic.Int63.Uint63.
From stdpp Require Import base option list relations gmap sorting strings.

Local Open Scope Z_scope.
Set Warnings "-inexact-float".

(* ------------------------------------------------------------------ *)
(** ** JavaScript numbers *)

Module Num.

(** An integer as a number; exact for [0 <= z < 2^53]. *)
Definition of_Z (z : Z) : float := of_uint63 (Uint63.of_Z z).

Definition is_neg_zero (a : float) : bool :=
  (a =? 0)%float && (1 / a <? 0)%float.

(** [Math.max] / [Math.min] on two numbers: NaN is contagious and
    [+0] is larger than [-0]. *)
Definition max (a b : float) : float :=
  if is_nan a || is_nan b then nan
  else if (a <? b)%float then b
  else if (b <? a)%float then a
  else if is_neg_zero a then b else a.

Definition min (a b : float) : float :=
  if is_nan a || is_nan b then nan
  else if (a <? b)%float then a
  else if (b <? a)%float then b
  else if is_neg_zero a then a else b.

Definition max3 (a b c : float) : float := max (max a b) c.
Definition min3 (a b c : float) : float := min (min a b) c.

(** [Math.floor]: a finite number [(-1)^s * m * 2^e] with [e >= 0] is
    an integer already; otherwise its magnitude is below 2^53 and the
    integer part converts exactly. *)
Definition floor (x : float) : float :=
  match Prim2SF x with
  | S754_finite s m e =>
      if (0 <=? e)%Z then x
      else
        let n := Z.shiftr (Zpos m) (- e) in
        let exact := (Z.shiftl n (- e) =? Zpos m)%Z in
        if s then (if exact then - of_Z n else - of_Z (n + 1))%float
        else of_Z n
  | _ => x
  end.

(** A store into a [Float32Array] rounds to binary32 (round to nearest,
    ties to even); every binary32 value is a binary64 value. *)
Definition fround (x : float) : float :=
  match Prim2SF x with
  | S754_finite s m e => SF2Prim (binary_round 24 128 s m e)
  | _ => x
  end.

End Num.

(* ------------------------------------------------------------------ *)
(** ** Typed arrays *)

(** [new Uint8Array(n)], [new Int32Array(n)], [new Float32Array(n)]: a
    fixed length, every cell initially zero.  A read outside the array
    is [undefined] ([None]); a store outside the array is dropped. *)
Module TypedArray.

Record t (A : Type) := mk { len : Z; zero : A; cells : gmap Z A }.
Arguments mk {A}.
Arguments len {A}.
Arguments zero {A}.
Arguments cells {A}.

Definition make {A} (z : A) (n : Z) : t A := mk n z ∅.

Definition inside {A} (a : t A) (i : Z) : bool :=
  (0 <=? i) && (i <? len a).

Definition get {A} (a : t A) (i : Z) : option A :=
  if inside a i then Some (default (zero a) (cells a !! i)) else None.

Definition set {A} (a : t A) (i : Z) (v : A) : t A :=
  if inside a i then mk (len a) (zero a) (<[i := v]> (cells a)) else a.

End TypedArray.

Abbreviation Uint8Array := (TypedArray.t bool).
Abbreviation Int32Array := (TypedArray.t Z).
Abbreviation Float32Array := (TypedArray.t float).

(* ------------------------------------------------------------------ *)
(** ** Data model *)

(** [LeafValidationResult] (lines 4-7): [reason] is an optional field. *)
Record LeafValidationResult := mkResult {
  valid : bool;
  reason : option string
}.

(** [ImageData] as [readImageData] returns it (line 92): [data] holds
    the RGBA bytes row by row, four per pixel, so its length is
    [4 * width * height]. *)
Record ImageData := mkImage {
  data : list Z;
  width : Z;
  height : Z
}.

(** A value thrown inside the [try] block: an [Error] carrying its
    message, or anything else. *)
Inductive thrown :=
| ErrorObj (message : string)
| NonError.

(** How a computation ends: with a value, or by throwing. *)
Inductive completion (A : Type) :=
| Normal (a : A)
| Throw (err : thrown).
Arguments Normal {A}.
Arguments Throw {A}.

(** What the decoder guarantees about the size of its output (lines
    81-84): both sides are between 1 and [maxDim = 256]. *)
Definition maxDim : Z := 256.

Definition decoder_dims (img : ImageData) : Prop :=
  (1 ≤ width img ≤ maxDim) ∧ (1 ≤ height img ≤ maxDim).

(* ------------------------------------------------------------------ *)
(** ** Feature extraction: the pixel pass (lines 114-182) *)

Record hsv := mkHSV { hsv_h : float; hsv_s : float; hsv_v : float }.

(** [toHSV] (lines 127-149).  The [switch (max)] compares with [===],
    first matching case wins. *)
Definition toHSV (r g b : float) : hsv :=
  let rn := (r / 255)%float in
  let gn := (g / 255)%float in
  let bn := (b / 255)%float in
  let max := Num.max3 rn gn bn in
  let min := Num.min3 rn gn bn in
  let d := (max - min)%float in
  let h :=
    if negb (d =? 0)%float then
      let h :=
        if (max =? rn)%float then
          ((gn - bn) / d + (if (gn <? bn)%float then 6 else 0))%float
        else if (max =? gn)%float then ((bn - rn) / d + 2)%float
        else ((rn - gn) / d + 4)%float in
      (h / 6)%float
    else 0%float in
  let s := if (max =? 0)%float then 0%float else (d / max)%float in
  mkHSV h s max.

(** Line 174. *)
Definition isGreenish (c : hsv) : bool :=
  let deg := (hsv_h c * 360)%float in
  ((45 <=? deg)%float && (deg <=? 160)%float)
  && (0.18 <=? hsv_s c)%float && (0.12 <=? hsv_v c)%float.

(** Lines 161-164. *)
Definition paletteCode (r g b : Z) : Z :=
  let pr := Z.land (Z.shiftr r 4) 15 in
  let pg := Z.land (Z.shiftr g 4) 15 in
  let pb := Z.land (Z.shiftr b 4) 15 in
  Z.lor (Z.lor (Z.shiftl pr 8) (Z.shiftl pg 4)) pb.

(** Everything the pixel loop writes. *)
Record scan := mkScan {
  gray : Float32Array;
  greenMask : Uint8Array;
  hueValues : list float;
  greenCount : Z;
  paletteCounts : gmap Z Z;
  rSum : float; gSum : float; bSum : float;
  rSq : float; gSq : float; bSq : float
}.

Definition scan_init (pixels : Z) : scan :=
  mkScan (TypedArray.make 0%float pixels) (TypedArray.make false pixels)
         [] 0 ∅ 0%float 0%float 0%float 0%float 0%float 0%float.

(** One iteration of the loop body (lines 152-179) for the pixel whose
    bytes are [r g b] and whose index is [idx]. *)
Definition scan_pixel (idx : Z) (r g b : Z) (st : scan) : scan :=
  let rf := Num.of_Z r in
  let gf := Num.of_Z g in
  let bf := Num.of_Z b in
  let gr := (0.299 * rf + 0.587 * gf + 0.114 * bf)%float in
  let code := paletteCode r g b in
  let c := toHSV rf gf bf in
  let green := isGreenish c in
  mkScan
    (TypedArray.set (gray st) idx (Num.fround gr))
    (if green then TypedArray.set (greenMask st) idx true else greenMask st)
    (if green then hueValues st ++ [hsv_h c] else hueValues st)
    (if green then greenCount st + 1 else greenCount st)
    (<[code := default 0 (paletteCounts st !! code) + 1]> (paletteCounts st))
    (rSum st + rf)%float (gSum st + gf)%float (bSum st + bf)%float
    (rSq st + rf * rf)%float (gSq st + gf * gf)%float (bSq st + bf * bf)%float.

(** [for (p = 0, idx = 0; p < data.length; p += 4, idx++)] (line 151).
    The buffer of an [ImageData] is a whole number of pixels, so the
    recursion consumes four bytes at a time until none is left. *)
Fixpoint scan_loop (bytes : list Z) (idx : Z) (st : scan) : scan :=
  match bytes with
  | r :: g :: b :: _ :: rest =>
      scan_loop rest (idx + 1) (scan_pixel idx r g b st)
  | _ => st
  end.

Definition scan_image (img : ImageData) : scan :=
  scan_loop (data img) 0 (scan_init (width img * height img)).

(* ------------------------------------------------------------------ *)
(** ** Component labelling on the green mask (lines 184-228) *)

(** A byte of a [Uint8Array] used as a flag: [undefined] is falsy. *)
Definition flag (a : Uint8Array) (i : Z) : bool :=
  default false (TypedArray.get a i).

(** [visited], the two coordinate stacks and the stack pointer. *)
Record fill := mkFill {
  visited : Uint8Array;
  stackX : Int32Array;
  stackY : Int32Array;
  sp : Z
}.

(** Line 191. *)
Definition push (x y : Z) (f : fill) : fill :=
  mkFill (visited f) (TypedArray.set (stackX f) (sp f) x)
         (TypedArray.set (stackY f) (sp f) y) (sp f + 1).

(** Line 192; only called under [sp > 0], and the stack never outgrows
    its arrays (see [core_room]), so both reads are inside. *)
Definition pop (f : fill) : (Z * Z) * fill :=
  let sp' := sp f - 1 in
  ((default 0 (TypedArray.get (stackX f) sp'),
    default 0 (TypedArray.get (stackY f) sp')),
   mkFill (visited f) (stackX f) (stackY f) sp').

Definition mark (i : Z) (f : fill) : fill :=
  mkFill (TypedArray.set (visited f) i true) (stackX f) (stackY f) (sp f).

(** Lines 206-214: left, right, up, down, each only inside the grid. *)
Definition neighbors (width height cx cy : Z) : list (Z * Z) :=
  (if 0 <? cx then [(cx - 1, cy)] else [])
  ++ (if cx + 1 <? width then [(cx + 1, cy)] else [])
  ++ (if 0 <? cy then [(cx, cy - 1)] else [])
  ++ (if cy + 1 <? height then [(cx, cy + 1)] else []).

(** Lines 216-221: the body of [for (const n of neighbors)]. *)
Definition visit (width : Z) (mask : Uint8Array) (f : fill)
    (n : Z * Z) : fill :=
  let j := n.2 * width + n.1 in
  if negb (flag (visited f) j) && flag mask j
  then push n.1 n.2 (mark j f)
  else f.

(** Lines 202-223: [while (sp > 0)].  [fuel] bounds the number of
    iterations; the result carries [sp], so a run that stopped because
    the stack is empty is recognised by [sp = 0]. *)
Fixpoint flood (fuel : nat) (width height : Z) (mask : Uint8Array)
    (f : fill) (areaComp : Z) : fill * Z :=
  match fuel with
  | O => (f, areaComp)
  | S fuel' =>
      if 0 <? sp f then
        let '((cx, cy), f1) := pop f in
        flood fuel' width height mask
              (foldl (visit width mask) f1 (neighbors width height cx cy))
              (areaComp + 1)
      else (f, areaComp)
  end.

(** Lines 196-224: the body of the two nested [for] loops at [(x, y)].
    Every pixel is pushed at most once, so [width * height] iterations
    are enough for one fill. *)
Definition label_at (width height : Z) (mask : Uint8Array)
    (y : Z) (st : fill * Z) (x : Z) : fill * Z :=
  let '(f, largestComp) := st in
  let i := y * width + x in
  if negb (flag mask i) || flag (visited f) i then st
  else
    let '(f', areaComp) :=
      flood (Z.to_nat (width * height)) width height mask
            (mark i (push x y f)) 0 in
    (f', if largestComp <? areaComp then areaComp else largestComp).

Definition label_row (width height : Z) (mask : Uint8Array)
    (st : fill * Z) (y : Z) : fill * Z :=
  foldl (label_at width height mask y) st (seqZ 0 width).

Definition fill_init (pixels : Z) : fill :=
  mkFill (TypedArray.make false pixels) (TypedArray.make 0 pixels)
         (TypedArray.make 0 pixels) 0.

(** Lines 185-227. *)
Definition largestComp (width height : Z) (mask : Uint8Array)
    (greenCount : Z) : Z :=
  if 0 <? greenCount then
    (foldl (label_row width height mask)
           (fill_init (width * height), 0) (seqZ 0 height)).2
  else 0.

(* ------------------------------------------------------------------ *)
(** ** Aggregates (lines 182, 228-277) *)

(** Lines 231-236: population standard deviation of one channel. *)
Definition channelStd (sum sq pixels : float) : float :=
  let mean := (sum / pixels)%float in
  PrimFloat.sqrt (Num.max 0 (sq / pixels - mean * mean)%float).

(** [(a, b) => b - a]: descending order of the counts. *)
Definition desc : relation Z := λ a b, b ≤ a.
#[global] Instance desc_dec : RelDecision desc := λ a b, decide (b ≤ a).

(** Lines 245-250.  The counts are sorted before the first five are
    taken, so the order in which the map enumerates them is immaterial. *)
Definition topShare_of (counts : gmap Z Z) (pixels : float) : float :=
  if (0 <? size counts)%nat then
    let top := take 5 (merge_sort desc (map_to_list counts).*2) in
    let sumTop := foldl Z.add 0 top in
    (Num.of_Z sumTop / pixels)%float
  else 0%float.

(** Lines 253-259: [undefined] when no pixel is masked. *)
Definition hueStdTooLow_of (hues : list float) : option bool :=
  if (0 <? length hues)%nat then
    let n := Num.of_Z (Z.of_nat (length hues)) in
    let m := (foldl PrimFloat.add 0 hues / n)%float in
    let vSum := (foldl (λ a v, a + (v - m) * (v - m)) 0 hues / n)%float in
    let hueStd := PrimFloat.sqrt vSum in
    Some (hueStd <? 0.02)%float
  else None.

(** A read of the [Float32Array]; [undefined] becomes NaN in arithmetic. *)
Definition grayAt (gray : Float32Array) (i : Z) : float :=
  default nan (TypedArray.get gray i).

(** Lines 267-273: the body of the interior loop; the pair counts
    [(edgeGreen, interiorGreen)]. *)
Definition edge_at (width : Z) (gray : Float32Array) (mask : Uint8Array)
    (y : Z) (acc : Z * Z) (x : Z) : Z * Z :=
  let i := y * width + x in
  if negb (flag mask i) then acc
  else
    let gx := (PrimFloat.abs (grayAt gray (i + 1) - grayAt gray i)
               + PrimFloat.abs (grayAt gray i - grayAt gray (i - 1)))%float in
    let gy := (PrimFloat.abs (grayAt gray (i + width) - grayAt gray i)
               + PrimFloat.abs (grayAt gray i - grayAt gray (i - width)))%float in
    let gmag := (gx + gy)%float in
    (if (10 <? gmag)%float then acc.1 + 1 else acc.1, acc.2 + 1).

(** Lines 262-277. *)
Definition edgeDensity_of (width height : Z) (gray : Float32Array)
    (mask : Uint8Array) : float :=
  let '(edgeGreen, interiorGreen) :=
    foldl (λ acc y, foldl (edge_at width gray mask y) acc (seqZ 1 (width - 2)))
          (0, 0) (seqZ 1 (height - 2)) in
  if 0 <? interiorGreen
  then (Num.of_Z edgeGreen / Num.of_Z interiorGreen)%float
  else 0%float.

(** The values the decision reads. *)
Record features := mkFeatures {
  greenRatio : float;
  largestCompRatio : float;
  isVeryUniform : bool;
  paletteTooSmall : bool;
  topShare : float;
  hueStdTooLow : option bool;
  edgeDensity : float
}.

Definition analyse (img : ImageData) : features :=
  let pixels := width img * height img in
  let px := Num.of_Z pixels in
  let st := scan_image img in
  let greenRatio := (Num.of_Z (greenCount st) / px)%float in
  let largest := largestComp (width img) (height img) (greenMask st)
                             (greenCount st) in
  let rStd := channelStd (rSum st) (rSq st) px in
  let gStd := channelStd (gSum st) (gSq st) px in
  let bStd := channelStd (bSum st) (bSq st) px in
  let uniqueBins := Z.of_nat (size (paletteCounts st)) in
  let minBins := Num.max 32 (Num.floor (px / 3000)%float) in
  mkFeatures
    greenRatio
    (Num.of_Z largest / px)%float
    ((rStd <? 6)%float && (gStd <? 6)%float && (bStd <? 6)%float)
    (Num.of_Z uniqueBins <? minBins)%float
    (topShare_of (paletteCounts st) px)
    (hueStdTooLow_of (hueValues st))
    (edgeDensity_of (width img) (height img) (gray st) (greenMask st)).

(* ------------------------------------------------------------------ *)
(** ** Decision (lines 104-112, 279-319) *)

Local Open Scope string_scope.

Definition reason_too_small := "Gambar terlalu kecil untuk dianalisis.".
Definition reason_aspect := "Rasio gambar terlalu ekstrem (tidak wajar).".
Definition reason_not_leaf := "Area daun terlalu kecil/Objek bukan daun.".
Definition reason_no_main_leaf :=
  "Objek daun terlalu kecil/tersebar (bukan satu daun utama).".
Definition reason_single_color :=
  "Gambar terlalu dominan satu warna (kemungkinan latar/ilustrasi).".
Definition reason_fragmented := "Objek daun terlalu kecil/tersebar.".
Definition reason_uniform :=
  "Gambar terlalu seragam seperti ilustrasi/solid color.".
Definition reason_palette :=
  "Palet warna sangat terbatas seperti ikon/ilustrasi.".
Definition reason_hard_edges := "Terlalu banyak garis tegas seperti ikon/teks.".
Definition reason_flat := "Tekstur daun tidak terdeteksi (terlalu datar).".
Definition reason_generic :=
  "Gambar tidak menunjukkan ciri daun tanaman yang jelas.".
Definition reason_fallback := "Gagal memvalidasi gambar.".

Local Close Scope string_scope.

Definition accept : LeafValidationResult := mkResult true None.
Definition reject (msg : string) : LeafValidationResult :=
  mkResult false (Some msg).

(** Lines 291-302: the running [score]. *)
Definition score (F : features) : Z :=
  let score := 0 in
  let score := score + 1 in
  let score :=
    if negb (isVeryUniform F) || negb (paletteTooSmall F)
    then score + 1 else score in
  let score :=
    if (edgeDensity F =? 0)%float
       || ((0.015 <=? edgeDensity F)%float && (edgeDensity F <=? 0.60)%float)
    then score + 1 else score in
  let score :=
    if match hueStdTooLow F with None => true | Some b => negb b end
    then score + 1 else score in
  let score := if (topShare F <=? 0.70)%float then score + 1 else score in
  score.

(** Lines 279-315: mandatory guards, soft score, rejection reason. *)
Definition decide_leaf (F : features) : LeafValidationResult :=
  if (greenRatio F <? 0.18)%float then reject reason_not_leaf
  else if (largestCompRatio F <? 0.12)%float then reject reason_no_main_leaf
  else if (0.995 <? greenRatio F)%float then reject reason_single_color
  else if 3 <=? score F then accept
  else if (largestCompRatio F <? 0.12)%float then reject reason_fragmented
  else if isVeryUniform F then reject reason_uniform
  else if paletteTooSmall F || (0.70 <? topShare F)%float
    then reject reason_palette
  else if (0.60 <? edgeDensity F)%float then reject reason_hard_edges
  else if (edgeDensity F <? 0.01)%float then reject reason_flat
  else reject reason_generic.

Definition MIN_AREA : Z := 8000.
Definition MAX_ASPECT : float := 7%float.

(** Line 109. *)
Definition aspect (img : ImageData) : float :=
  (Num.of_Z (Z.max (width img) (height img))
   / Num.of_Z (Z.max 1 (Z.min (width img) (height img))))%float.

(** Lines 100-315: the [try] block.  [read] is how
    [await readImageData(file)] ended (line 100); when it threw, the
    block is left at once. *)
Definition validate_body (read : completion ImageData)
    : completion LeafValidationResult :=
  match read with
  | Throw err => Throw err
  | Normal img =>
      let area := width img * height img in
      if area <? MIN_AREA then Normal (reject reason_too_small)
      else if (MAX_ASPECT <? aspect img)%float
        then Normal (reject reason_aspect)
      else Normal (decide_leaf (analyse img))
  end.

(** Lines 98-320: the [try] block and its [catch] clause. *)
Definition validateLeafImage (read : completion ImageData)
    : LeafValidationResult :=
  match validate_body read with
  | Normal v => v
  | Throw err =>
      let message :=
        match err with
        | ErrorObj message => message
        | NonError => reason_fallback
        end in
      reject message
  end.

(* ------------------------------------------------------------------ *)
(** ** The grid and its 4-connected regions *)

(** Pixels are pairs [(x, y)]; [idx] is the index of a pixel in the
    row-major arrays. *)
Definition inb (W H : Z) (p : Z * Z) : Prop := 0 ≤ p.1 < W ∧ 0 ≤ p.2 < H.
Definition idx (W : Z) (p : Z * Z) : Z := p.2 * W + p.1.

Definition masked (W H : Z) (mask : Uint8Array) (p : Z * Z) : Prop :=
  inb W H p ∧ flag mask (idx W p) = true.

(** Left, right, up or down by one. *)
Definition adj (p q : Z * Z) : Prop :=
  (q.2 = p.2 ∧ (q.1 = p.1 - 1 ∨ q.1 = p.1 + 1))
  ∨ (q.1 = p.1 ∧ (q.2 = p.2 - 1 ∨ q.2 = p.2 + 1)).

Definition link (W H : Z) (mask : Uint8Array) (p q : Z * Z) : Prop :=
  adj p q ∧ masked W H mask q.

(** [q] lies in the region of the masked pixel [p]. *)
Definition conn (W H : Z) (mask : Uint8Array) (p q : Z * Z) : Prop :=
  masked W H mask p ∧ rtc (link W H mask) p q.

(** The region of [p] has [n] pixels. *)
Definition region_size (W H : Z) (mask : Uint8Array) (p : Z * Z) (n : Z)
    : Prop :=
  ∃ l : list (Z * Z),
    NoDup l ∧ (∀ q, q ∈ l ↔ conn W H mask p q) ∧ Z.of_nat (length l) = n.

(** [n] is the pixel count of the largest region ([0] without any
    masked pixel). *)
Definition largest_region_size (W H : Z) (mask : Uint8Array) (n : Z) : Prop :=
  (∀ p, masked W H mask p → ∃ k, region_size W H mask p k ∧ k ≤ n)
  ∧ ((∃ p, masked W H mask p ∧ region_size W H mask p n)
     ∨ ((∀ p, ¬ masked W H mask p) ∧ n = 0)).

(** All pixels of the grid, row by row. *)
Definition all_pixels (W H : Z) : list (Z * Z) :=
  (λ i, (i `mod` W, i `div` W)) <$> seqZ 0 (W * H).

(* ------------------------------------------------------------------ *)
(** ** Invariants of the flood fill *)

(** The stack as a list, bottom first. *)
Definition cell (f : fill) (k : Z) : Z * Z :=
  (default 0 (TypedArray.get (stackX f) k),
   default 0 (TypedArray.get (stackY f) k)).

Definition stack_of (f : fill) : list (Z * Z) := cell f <$> seqZ 0 (sp f).

Definition seen (W : Z) (f : fill) (p : Z * Z) : Prop :=
  flag (visited f) (idx W p) = true.

Record arrays_ok (W H : Z) (f : fill) : Prop := {
  ok_visited : TypedArray.len (visited f) = W * H;
  ok_stackX : TypedArray.len (stackX f) = W * H;
  ok_stackY : TypedArray.len (stackY f) = W * H;
  ok_sp : 0 ≤ sp f
}.
Arguments ok_visited {W H f}.
Arguments ok_stackX {W H f}.
Arguments ok_stackY {W H f}.
Arguments ok_sp {W H f}.

(** During one fill.  [V0]: the pixels visited before this fill; [p0]:
    its seed; [D]: the pixels popped so far. *)
Record core (W H : Z) (mask : Uint8Array) (V0 : Z * Z → Prop) (p0 : Z * Z)
    (f : fill) (D : list (Z * Z)) : Prop := {
  core_ok : arrays_ok W H f;
  core_nodup : NoDup (D ++ stack_of f);
  core_conn : ∀ q, q ∈ D ++ stack_of f → conn W H mask p0 q ∧ ¬ V0 q;
  core_seen : ∀ q, inb W H q → seen W f q ↔ V0 q ∨ q ∈ D ++ stack_of f;
  core_seed : p0 ∈ D ++ stack_of f
}.
Arguments core_ok {W H mask V0 p0 f D}.
Arguments core_nodup {W H mask V0 p0 f D}.
Arguments core_conn {W H mask V0 p0 f D}.
Arguments core_seen {W H mask V0 p0 f D}.
Arguments core_seed {W H mask V0 p0 f D}.

(** Pixels already popped have all their masked neighbours visited. *)
Definition closed_on (W H : Z) (mask : Uint8Array) (f : fill)
    (D : list (Z * Z)) : Prop :=
  ∀ d q, d ∈ D → link W H mask d q → seen W f q.

(** Between two fills: the visited pixels form whole regions, and
    [largest] is the size of the largest of them. *)
Record outer (W H : Z) (mask : Uint8Array) (f : fill) (largest : Z) : Prop := {
  out_ok : arrays_ok W H f;
  out_sp : sp f = 0;
  out_masked : ∀ q, inb W H q → seen W f q → masked W H mask q;
  out_closed :
    ∀ a b, inb W H a → seen W f a → link W H mask a b → seen W f b;
  out_bound :
    ∀ q, inb W H q → seen W f q →
         ∃ n, region_size W H mask q n ∧ n ≤ largest;
  out_least :
    (∃ q, masked W H mask q ∧ region_size W H mask q largest)
    ∨ ((∀ q, inb W H q → ¬ seen W f q) ∧ largest = 0)
}.

(* ------------------------------------------------------------------ *)
(** ** Invariant of the pixel pass *)

(** The counter is positive as soon as one flag is set, and there is one
    hue sample per counted pixel. *)
Record scan_ok (st : scan) : Prop := {
  scan_count : 0 ≤ greenCount st;
  scan_flags : greenCount st ≤ 0 → ∀ i, flag (greenMask st) i = false;
  scan_hues : Z.of_nat (length (hueValues st)) = greenCount st
}.

(** A buffer whose pixels all have the colour [(r, g, b)]; the alpha
    bytes are free. *)
Definition solid (r g b : Z) (alphas : list Z) : list Z :=
  alphas ≫= λ a, [r; g; b; a].

(* ------------------------------------------------------------------ *)
(** ** Checked ranges of pixel counts *)

(** [P] holds at [lo], [lo + 1], ..., [lo + len - 1]. *)
Definition all_between (lo len : Z) (P : Z → bool) : bool :=
  (Z.iter len (λ s, (s.1 + 1, s.2 && P s.1)) (lo, true)).2.

(** A decoded grid that passes the area guard has between 8000 and
    256 * 256 pixels. *)
Definition count_lo : Z := MIN_AREA.
Definition count_len : Z := maxDim * maxDim - MIN_AREA + 1.

Definition full_ratio_check (n : Z) : bool :=
  let one := (Num.of_Z n / Num.of_Z n)%float in
  (one =? 1)%float && negb (one <? 0.18)%float
  && negb (one <? 0.12)%float && (0.995 <? one)%float.

Definition zero_ratio_check (n : Z) : bool :=
  (Num.of_Z 0 / Num.of_Z n <? 0.18)%float.

(* ------------------------------------------------------------------ *)
(** ** The guards and the soft signals, as the specification lists them *)

Inductive guard := TooSmall | TooExtreme | NotLeaf | NoMainLeaf | SingleColor.

Definition guard_order : list guard :=
  [TooSmall; TooExtreme; NotLeaf; NoMainLeaf; SingleColor].

Definition guard_fires (img : ImageData) (F : features) (g : guard) : bool :=
  match g with
  | TooSmall => width img * height img <? 8000
  | TooExtreme => (7 <? aspect img)%float
  | NotLeaf => (greenRatio F <? 0.18)%float
  | NoMainLeaf => (largestCompRatio F <? 0.12)%float
  | SingleColor => (0.995 <? greenRatio F)%float
  end.

Definition guard_reason (g : guard) : string :=
  match g with
  | TooSmall => reason_too_small
  | TooExtreme => reason_aspect
  | NotLeaf => reason_not_leaf
  | NoMainLeaf => reason_no_main_leaf
  | SingleColor => reason_single_color
  end.

Definition first_failing_guard (img : ImageData) : option guard :=
  List.find (guard_fires img (analyse img)) guard_order.

Definition passes_guards (img : ImageData) : bool :=
  match first_failing_guard img with None => true | Some _ => false end.

Definition signal2 (F : features) : bool :=
  negb (isVeryUniform F) || negb (paletteTooSmall F).
Definition signal3 (F : features) : bool :=
  (edgeDensity F =? 0)%float
  || ((0.015 <=? edgeDensity F)%float && (edgeDensity F <=? 0.60)%float).
Definition signal4 (F : features) : bool :=
  match hueStdTooLow F with None => true | Some b => negb b end.
Definition signal5 (F : features) : bool := (topShare F <=? 0.70)%float.

Definition signals (F : features) : list bool :=
  [true; signal2 F; signal3 F; signal4 F; signal5 F].

Definition held (l : list bool) : Z := foldr (λ b n, Z.b2z b + n) 0 l.

(** The rejection reasons of Phase 3 with their conditions, most
    specific first. *)
Definition rejection_reasons (F : features) : list (bool * string) :=
  [ ((largestCompRatio F <? 0.12)%float, reason_fragmented);
    (isVeryUniform F, reason_uniform);
    (paletteTooSmall F || (0.70 <? topShare F)%float, reason_palette);
    ((0.60 <? edgeDensity F)%float, reason_hard_edges);
    ((edgeDensity F <? 0.01)%float, reason_flat) ].

Definition most_specific_reason (F : features) : string :=
  match List.find fst (rejection_reasons F) with
  | Some (_, r) => r
  | None => reason_generic
  end.

(* ------------------------------------------------------------------ *)
(** ** Test images *)

(** A [w] x [h] image whose pixel at [(x, y)] has the colour [f x y],
    fully opaque. *)
Definition render (w h : Z) (f : Z → Z → Z * Z * Z) : ImageData :=
  mkImage (y ← seqZ 0 h; x ← seqZ 0 w; let '(r, g, b) := f x y in [r; g; b; 255])
          w h.

Definition leaf_green : Z * Z * Z := (60, 160, 60).

(** One pixel. *)
Definition tiny : ImageData := render 1 1 (λ _ _, leaf_green).

(** 100 x 80, the top quarter leaf green, the rest white. *)
Definition green_on_white : ImageData :=
  render 100 80 (λ _ y, if y <? 20 then leaf_green else (255, 255, 255)).

(** 100 x 80, two dark tones ten units apart: the top quarter is just
    bright enough to be masked. *)
Definition two_dark_tones : ImageData :=
  render 100 80 (λ _ y, if y <? 20 then (20, 40, 20) else (20, 30, 20)).

(** 50 x 20 = 1000 pixels: a 10 x 10 and a 20 x 20 block of leaf green,
    ten columns apart, on red. *)
Definition two_blobs : ImageData :=
  render 50 20 (λ x y,
    if (x <? 10) && (y <? 10) || (20 <=? x) && (x <? 40)
    then leaf_green else (200, 30, 30)).

(** Solid leaf green, 100 x 80 and 256 x 32. *)
Definition solid_green (w h : Z) : ImageData :=
  mkImage (solid 60 160 60 (replicate (Z.to_nat (w * h)) 255)) w h.

(* ------------------------------------------------------------------ *)
(** ** The validator as a program on a store *)

(** What the body creates with [new] or with a literal (lines 116-122
    and 187-189). *)
Inductive object :=
| OFloat32 (a : Float32Array)
| OUint8 (a : Uint8Array)
| OInt32 (a : Int32Array)
| OArray (l : list float)
| OMap (m : gmap Z Z).

(** The store holds every object created so far, oldest first, and
    outlives the call that created the object; a reference is the
    position of an object in the store. *)
Abbreviation store := (list object).
Abbreviation ref := nat.

Module Store.

(** [new]: the object is placed behind all existing ones. *)
Definition alloc (o : object) (σ : store) : ref * store :=
  (length σ, σ ++ [o]).

(** [a[i]] read as a condition, and [a[i] = 1], on a [Uint8Array]. *)
Definition get_u8 (σ : store) (l : ref) (i : Z) : bool :=
  match σ !! l with Some (OUint8 a) => flag a i | _ => false end.

Definition set_u8 (l : ref) (i : Z) (σ : store) : store :=
  match σ !! l with
  | Some (OUint8 a) => <[l := OUint8 (TypedArray.set a i true)]> σ
  | _ => σ
  end.

(** [a[i]] in arithmetic, and [a[i] = v], on a [Float32Array]. *)
Definition get_f32 (σ : store) (l : ref) (i : Z) : float :=
  match σ !! l with Some (OFloat32 a) => grayAt a i | _ => nan end.

Definition set_f32 (l : ref) (i : Z) (v : float) (σ : store) : store :=
  match σ !! l with
  | Some (OFloat32 a) => <[l := OFloat32 (TypedArray.set a i (Num.fround v))]> σ
  | _ => σ
  end.

(** [a[i]] and [a[i] = v] on an [Int32Array]. *)
Definition get_i32 (σ : store) (l : ref) (i : Z) : Z :=
  match σ !! l with
  | Some (OInt32 a) => default 0 (TypedArray.get a i)
  | _ => 0
  end.

Definition set_i32 (l : ref) (i : Z) (v : Z) (σ : store) : store :=
  match σ !! l with
  | Some (OInt32 a) => <[l := OInt32 (TypedArray.set a i v)]> σ
  | _ => σ
  end.

(** [a.push(v)], and the elements of [a], for a plain array. *)
Definition push (l : ref) (v : float) (σ : store) : store :=
  match σ !! l with
  | Some (OArray vs) => <[l := OArray (vs ++ [v])]> σ
  | _ => σ
  end.

Definition elements (σ : store) (l : ref) : list float :=
  match σ !! l with Some (OArray vs) => vs | _ => [] end.

(** [m.get(k)], [m.set(k, v)], and the entries of [m], for a [Map]. *)
Definition map_get (σ : store) (l : ref) (k : Z) : option Z :=
  match σ !! l with Some (OMap m) => m !! k | _ => None end.

Definition map_set (l : ref) (k v : Z) (σ : store) : store :=
  match σ !! l with
  | Some (OMap m) => <[l := OMap (<[k := v]> m)]> σ
  | _ => σ
  end.

Definition entries (σ : store) (l : ref) : gmap Z Z :=
  match σ !! l with Some (OMap m) => m | _ => ∅ end.

End Store.

(** The [let] variables of the pixel loop (lines 119, 124-125). *)
Record tally := mkTally {
  t_greenCount : Z;
  t_rSum : float; t_gSum : float; t_bSum : float;
  t_rSq : float; t_gSq : float; t_bSq : float
}.

(** The references held by [gray], [greenMask], [hueValues] and
    [paletteCounts]. *)
Record pass_refs := mkPassRefs {
  r_gray : ref; r_greenMask : ref; r_hueValues : ref; r_paletteCounts : ref
}.

(** The references held by [visited], [stackX] and [stackY]. *)
Record fill_refs := mkFillRefs {
  r_visited : ref; r_stackX : ref; r_stackY : ref
}.

(** The loop body of lines 152-179, statement by statement. *)
Definition run_scan_pixel (ρ : pass_refs) (idx r g b : Z) (t : tally)
    (σ : store) : tally * store :=
  let rf := Num.of_Z r in
  let gf := Num.of_Z g in
  let bf := Num.of_Z b in
  let gr := (0.299 * rf + 0.587 * gf + 0.114 * bf)%float in
  let σ := Store.set_f32 (r_gray ρ) idx gr σ in
  let code := paletteCode r g b in
  let σ :=
    Store.map_set (r_paletteCounts ρ) code
      (default 0 (Store.map_get σ (r_paletteCounts ρ) code) + 1) σ in
  let t :=
    mkTally (t_greenCount t)
      (t_rSum t + rf)%float (t_gSum t + gf)%float (t_bSum t + bf)%float
      (t_rSq t + rf * rf)%float (t_gSq t + gf * gf)%float
      (t_bSq t + bf * bf)%float in
  let c := toHSV rf gf bf in
  if isGreenish c then
    let σ := Store.set_u8 (r_greenMask ρ) idx σ in
    let t :=
      mkTally (t_greenCount t + 1) (t_rSum t) (t_gSum t) (t_bSum t)
              (t_rSq t) (t_gSq t) (t_bSq t) in
    let σ := Store.push (r_hueValues ρ) (hsv_h c) σ in
    (t, σ)
  else (t, σ).

(** Line 151. *)
Fixpoint run_scan_loop (ρ : pass_refs) (bytes : list Z) (idx : Z)
    (t : tally) (σ : store) : tally * store :=
  match bytes with
  | r :: g :: b :: _ :: rest =>
      let '(t, σ) := run_scan_pixel ρ idx r g b t σ in
      run_scan_loop ρ rest (idx + 1) t σ
  | _ => (t, σ)
  end.

(** Lines 191-192; the [let] variable [sp] travels with the store. *)
Definition run_push (φ : fill_refs) (x y : Z) (s : Z * store) : Z * store :=
  let '(sp, σ) := s in
  let σ := Store.set_i32 (r_stackX φ) sp x σ in
  let σ := Store.set_i32 (r_stackY φ) sp y σ in
  (sp + 1, σ).

Definition run_pop (φ : fill_refs) (s : Z * store) : (Z * Z) * (Z * store) :=
  let '(sp, σ) := s in
  let sp := sp - 1 in
  ((Store.get_i32 σ (r_stackX φ) sp, Store.get_i32 σ (r_stackY φ) sp),
   (sp, σ)).

(** Lines 216-221. *)
Definition run_visit (width : Z) (ρ : pass_refs) (φ : fill_refs)
    (s : Z * store) (n : Z * Z) : Z * store :=
  let j := n.2 * width + n.1 in
  if negb (Store.get_u8 s.2 (r_visited φ) j)
     && Store.get_u8 s.2 (r_greenMask ρ) j
  then run_push φ n.1 n.2 (s.1, Store.set_u8 (r_visited φ) j s.2)
  else s.

(** Lines 202-223. *)
Fixpoint run_flood (fuel : nat) (width height : Z) (ρ : pass_refs)
    (φ : fill_refs) (s : Z * store) (areaComp : Z) : (Z * store) * Z :=
  match fuel with
  | O => (s, areaComp)
  | S fuel' =>
      if 0 <? s.1 then
        let '((cx, cy), s1) := run_pop φ s in
        run_flood fuel' width height ρ φ
          (foldl (run_visit width ρ φ) s1 (neighbors width height cx cy))
          (areaComp + 1)
      else (s, areaComp)
  end.

(** Lines 196-224. *)
Definition run_label_at (width height : Z) (ρ : pass_refs) (φ : fill_refs)
    (y : Z) (st : (Z * store) * Z) (x : Z) : (Z * store) * Z :=
  let '(s, largestComp) := st in
  let i := y * width + x in
  if negb (Store.get_u8 s.2 (r_greenMask ρ) i)
     || Store.get_u8 s.2 (r_visited φ) i
  then st
  else
    let s := run_push φ x y s in
    let s := (s.1, Store.set_u8 (r_visited φ) i s.2) in
    let '(s, areaComp) :=
      run_flood (Z.to_nat (width * height)) width height ρ φ s 0 in
    (s, if largestComp <? areaComp then areaComp else largestComp).

Definition run_label_row (width height : Z) (ρ : pass_refs) (φ : fill_refs)
    (st : (Z * store) * Z) (y : Z) : (Z * store) * Z :=
  foldl (run_label_at width height ρ φ y) st (seqZ 0 width).

(** Lines 185-227: the three arrays are created only when a pixel is
    masked. *)
Definition run_largestComp (width height : Z) (ρ : pass_refs)
    (greenCount : Z) (σ : store) : Z * store :=
  if 0 <? greenCount then
    let pixels := width * height in
    let '(visited, σ) := Store.alloc (OUint8 (TypedArray.make false pixels)) σ in
    let '(stackX, σ) := Store.alloc (OInt32 (TypedArray.make 0 pixels)) σ in
    let '(stackY, σ) := Store.alloc (OInt32 (TypedArray.make 0 pixels)) σ in
    let φ := mkFillRefs visited stackX stackY in
    let '((_, σ), largestComp) :=
      foldl (run_label_row width height ρ φ) ((0, σ), 0) (seqZ 0 height) in
    (largestComp, σ)
  else (0, σ).

(** Lines 267-273, reading [gray] and [greenMask] from the store. *)
Definition run_edge_at (width : Z) (ρ : pass_refs) (σ : store)
    (y : Z) (acc : Z * Z) (x : Z) : Z * Z :=
  let i := y * width + x in
  let gray := Store.get_f32 σ (r_gray ρ) in
  if negb (Store.get_u8 σ (r_greenMask ρ) i) then acc
  else
    let gx := (PrimFloat.abs (gray (i + 1)%Z - gray i)
               + PrimFloat.abs (gray i - gray (i - 1)%Z))%float in
    let gy := (PrimFloat.abs (gray (i + width)%Z - gray i)
               + PrimFloat.abs (gray i - gray (i - width)%Z))%float in
    let gmag := (gx + gy)%float in
    (if (10 <? gmag)%float then acc.1 + 1 else acc.1, acc.2 + 1).

(** Lines 262-277. *)
Definition run_edgeDensity (width height : Z) (ρ : pass_refs) (σ : store)
    : float :=
  let '(edgeGreen, interiorGreen) :=
    foldl (λ acc y, foldl (run_edge_at width ρ σ y) acc (seqZ 1 (width - 2)))
          (0, 0) (seqZ 1 (height - 2)) in
  if 0 <? interiorGreen
  then (Num.of_Z edgeGreen / Num.of_Z interiorGreen)%float
  else 0%float.

(** Lines 114-277: the objects are created, filled and read. *)
Definition run_analyse (img : ImageData) (σ : store) : features * store :=
  let pixels := width img * height img in
  let px := Num.of_Z pixels in
  let '(gray, σ) := Store.alloc (OFloat32 (TypedArray.make 0%float pixels)) σ in
  let '(greenMask, σ) := Store.alloc (OUint8 (TypedArray.make false pixels)) σ in
  let '(hueValues, σ) := Store.alloc (OArray []) σ in
  let '(paletteCounts, σ) := Store.alloc (OMap ∅) σ in
  let ρ := mkPassRefs gray greenMask hueValues paletteCounts in
  let '(t, σ) :=
    run_scan_loop ρ (data img) 0
      (mkTally 0 0%float 0%float 0%float 0%float 0%float 0%float) σ in
  let greenRatio := (Num.of_Z (t_greenCount t) / px)%float in
  let '(largest, σ) :=
    run_largestComp (width img) (height img) ρ (t_greenCount t) σ in
  let rStd := channelStd (t_rSum t) (t_rSq t) px in
  let gStd := channelStd (t_gSum t) (t_gSq t) px in
  let bStd := channelStd (t_bSum t) (t_bSq t) px in
  let uniqueBins := Z.of_nat (size (Store.entries σ paletteCounts)) in
  let minBins := Num.max 32 (Num.floor (px / 3000)%float) in
  (mkFeatures
     greenRatio
     (Num.of_Z largest / px)%float
     ((rStd <? 6)%float && (gStd <? 6)%float && (bStd <? 6)%float)
     (Num.of_Z uniqueBins <? minBins)%float
     (topShare_of (Store.entries σ paletteCounts) px)
     (hueStdTooLow_of (Store.elements σ hueValues))
     (run_edgeDensity (width img) (height img) ρ σ),
   σ).

(** Lines 100-315. *)
Definition run_validate_body (read : completion ImageData) (σ : store)
    : completion LeafValidationResult * store :=
  match read with
  | Throw err => (Throw err, σ)
  | Normal img =>
      let area := width img * height img in
      if area <? MIN_AREA then (Normal (reject reason_too_small), σ)
      else if (MAX_ASPECT <? aspect img)%float
        then (Normal (reject reason_aspect), σ)
      else
        let '(F, σ) := run_analyse img σ in
        (Normal (decide_leaf F), σ)
  end.

(** Lines 98-320: one call of the validator, started on the store that
    earlier calls have left. *)
Definition run_validateLeafImage (read : completion ImageData) (σ : store)
    : LeafValidationResult * store :=
  let '(c, σ) := run_validate_body read σ in
  match c with
  | Normal v => (v, σ)
  | Throw err =>
      let message :=
        match err with
        | ErrorObj message => message
        | NonError => reason_fallback
        end in
      (reject message, σ)
  end.

(** The verdicts of a series of calls, each started on the store its
    predecessor has left. *)
Fixpoint run_calls (reads : list (completion ImageData)) (σ : store)
    : list LeafValidationResult * store :=
  match reads with
  | [] => ([], σ)
  | read :: reads =>
      let '(v, σ) := run_validateLeafImage read σ in
      let '(vs, σ) := run_calls reads σ in
      (v :: vs, σ)
  end.

(** What the pure pixel pass and the pure fill hold, as objects. *)
Definition scan_objects (st : scan) : list object :=
  [OFloat32 (gray st); OUint8 (greenMask st); OArray (hueValues st);
   OMap (paletteCounts st)].

Definition fill_objects (f : fill) : list object :=
  [OUint8 (visited f); OInt32 (stackX f); OInt32 (stackY f)].

Definition tally_of (st : scan) : tally :=
  mkTally (greenCount st) (rSum st) (gSum st) (bSum st)
          (rSq st) (gSq st) (bSq st).

Definition pass_refs_at (n : nat) : pass_refs :=
  mkPassRefs (n + 0) (n + 1) (n + 2) (n + 3).

Definition fill_refs_at (n : nat) : fill_refs :=
  mkFillRefs (n + 4) (n + 5) (n + 6).

(** The pure fill as the stack pointer and the store of the program;
    [st] is the pixel pass that came before. *)
Definition fill_state (σ0 : store) (st : scan) (f : fill) : Z * store :=
  (sp f, σ0 ++ scan_objects st ++ fill_objects f).

(** The objects a call leaves behind. *)
Definition fill_garbage (width height : Z) (st : scan) : list object :=
  if 0 <? greenCount st then
    fill_objects
      (foldl (label_row width height (greenMask st))
             (fill_init (width * height), 0) (seqZ 0 height)).1
  else [].

Definition garbage (read : completion ImageData) : list object :=
  match read with
  | Throw _ => []
  | Normal img =>
      if width img * height img <? MIN_AREA then []
      else if (MAX_ASPECT <? aspect img)%float then []
      else scan_objects (scan_image img)
           ++ fill_garbage (width img) (height img) (scan_image img)
  end.

(* ------------------------------------------------------------------ *)
(** ** Buffers and counters of the pixel pass *)

(** An [ImageData] buffer holds four bytes for every pixel of the grid. *)
Definition well_formed (img : ImageData) : Prop :=
  Z.of_nat (length (data img)) = 4 * (width img * height img).




(** [Object.values(paletteCounts)], added up. *)
Definition total (counts : gmap Z Z) : Z :=
  foldr Z.add 0 (map_to_list counts).*2.

(** [sumTop] (lines 246-248): the five largest counts, added up. *)
Definition sumTop (counts : gmap Z Z) : Z :=
  foldl Z.add 0 (take 5 (merge_sort desc (map_to_list counts).*2)).

(** The bitwise packing of three 4-bit values is the base-16 number
    with these digits: the check for the number [n]. *)
Definition pack_check (n : Z) : bool :=
  let pr := n `div` 256 in
  let pg := (n `div` 16) `mod` 16 in
  let pb := n `mod` 16 in
  Z.lor (Z.lor (Z.shiftl pr 8) (Z.shiftl pg 4)) pb =? n.

(** The aspect test in floating point against the same test on the
    integers, for a long side [long] and every shorter side. *)
Definition aspect_check (long : Z) : bool :=
  all_between 1 long (λ short,
    Bool.eqb (MAX_ASPECT <? Num.of_Z long / Num.of_Z (Z.max 1 short))%float
             (7 * short <? long)).


(** 256 x 36: 9216 pixels, the long side more than seven times the
    short one. *)
Definition strip : ImageData := solid_green 256 36.

(* ------------------------------------------------------------------ *)
(** ** The size of the decoded grid (lines 81-84) *)

(** [Math.round]: the nearest integer, a tie going up.  A finite number
    [(-1)^s * m * 2^e] with [e >= 0] is an integer already; otherwise
    [floor (x + 1/2)] is computed exactly from [floor (2 x)], and its
    magnitude is below 2^53. *)
Definition Math_round (x : float) : float :=
  match Prim2SF x with
  | S754_finite s m e =>
      if 0 <=? e then x
      else
        let twice := Z.shiftl (if s then Z.neg m else Z.pos m) (e + 1) in
        let r := Z.shiftr (twice + 1) 1 in
        if r =? 0 then (if s then (-0)%float else 0%float)
        else if r <? 0 then (- Num.of_Z (- r))%float
        else Num.of_Z r
  | _ => x
  end.

(** One side of the canvas: [side] is [img.width] or [img.height],
    [longest] is [Math.max(img.width, img.height)]. *)
Definition targetSide (side longest : Z) : float :=
  let scale := Num.min 1 (256 / Num.of_Z longest)%float in
  Num.max 1 (Math_round (Num.of_Z side * scale)%float).

(** Lines 81-84: [(targetW, targetH)]. *)
Definition targetSize (imgWidth imgHeight : Z) : float * float :=
  let longest := Z.max imgWidth imgHeight in
  (targetSide imgWidth longest, targetSide imgHeight longest).

(** The checks behind the two properties of [targetSize]. *)
Definition keeps_small_check (longest : Z) : bool :=
  all_between 1 longest
    (λ side, (targetSide side longest =? Num.of_Z side)%float).

Definition long_side_check (longest : Z) : bool :=
  (targetSide longest longest =? 256)%float.

Definition largest_source : Z := 16384.

(* ------------------------------------------------------------------ *)
(** ** Plant labels (lines 9-68) *)

(** Labels are strings of ASCII characters, as the classifier's labels
    are ([Daun_Apel_Busuk], [Tomato leaf]); on them [toLowerCase] maps
    [A-Z] to [a-z] and leaves every other character alone. *)
Definition str (s : string) : list ascii := list_ascii_of_string s.

Definition ascii_only (s : list ascii) : bool :=
  forallb (λ c, (N_of_ascii c <? 128)%N) s.

Definition lower_char (c : ascii) : ascii :=
  let n := N_of_ascii c in
  if ((65 <=? n) && (n <=? 90))%N then ascii_of_N (n + 32) else c.

Definition toLowerCase (s : list ascii) : list ascii := lower_char <$> s.

(** The class [[_\s]]: the underscore and the ASCII white space (tab,
    line feed, vertical tab, form feed, carriage return, space). *)
Definition is_sep (c : ascii) : bool :=
  let n := N_of_ascii c in
  ((n =? 95) || ((9 <=? n) && (n <=? 13)) || (n =? 32))%N.

(** [s.split(/[_\s]+/)]: the pieces between the maximal runs of
    separators, an empty piece before a leading run and after a trailing
    one.  [in_run] tells that the previous character was a separator;
    [cur] is the current piece, reversed. *)
Fixpoint split_aux (in_run : bool) (cur s : list ascii)
    : list (list ascii) :=
  match s with
  | [] => [reverse cur]
  | c :: rest =>
      if is_sep c then
        if in_run then split_aux true cur rest
        else reverse cur :: split_aux true [] rest
      else split_aux false (c :: cur) rest
  end.

Definition split_seps (s : list ascii) : list (list ascii) :=
  split_aux false [] s.

(** A string is truthy when it is not empty. *)
Definition truthy (s : list ascii) : bool :=
  match s with [] => false | _ => true end.

(** [hay.startsWith(needle)] and [hay.includes(needle)]. *)
Fixpoint startsWith (needle hay : list ascii) : bool :=
  match needle, hay with
  | [], _ => true
  | _ :: _, [] => false
  | a :: needle', b :: hay' => bool_decide (a = b) && startsWith needle' hay'
  end.

Fixpoint includes (needle hay : list ascii) : bool :=
  match hay with
  | [] => startsWith needle []
  | _ :: rest => startsWith needle hay || includes needle rest
  end.

(** Lines 10-21. *)
Definition ALLOWED_PLANTS : list (list ascii) :=
  str <$> ["Anggur"; "Apel"; "Jagung"; "Kentang"; "Tomat"; "Buncis";
           "Cabai"; "Durian"; "Pisang"; "Selada"]%string.

(** Lines 26-40.  [/^daun$/i] accepts exactly the strings that lower-case
    to [daun]. *)
Definition parsePlantFromLabel (label : list ascii) : option (list ascii) :=
  let raw := label in
  if negb (truthy raw) then None
  else
    let parts := filter (λ p, truthy p = true) (split_seps raw) in
    let lower := toLowerCase raw in
    let fallback :=
      List.find (λ p, includes (toLowerCase p) lower) ALLOWED_PLANTS in
    match parts with
    | p0 :: p1 :: _ =>
        if bool_decide (toLowerCase p0 = str "daun") then Some p1
        else fallback
    | _ => fallback
    end.

(** Lines 43-54. *)
Definition PLANT_SYNONYMS : list (list ascii * list (list ascii)) :=
  (λ e : string * list string, (str e.1, str <$> e.2)) <$>
  [ ("Anggur", ["grape"; "grapes"]);
    ("Apel", ["apple"; "apples"]);
    ("Jagung", ["corn"; "maize"]);
    ("Kentang", ["potato"; "potatoes"]);
    ("Tomat", ["tomato"; "tomatoes"]);
    ("Buncis", ["bean"; "beans"; "kidney bean"; "green bean"; "soybean"]);
    ("Cabai", ["chili"; "chilli"; "pepper"; "chile"]);
    ("Durian", ["durian"; "durio"]);
    ("Pisang", ["banana"; "bananas"; "plantain"]);
    ("Selada", ["lettuce"]) ]%string.

(** Lines 56-68. *)
Definition isAllowedPlantLabel (label : list ascii) : bool :=
  let plant := parsePlantFromLabel label in
  let lowerLabel := toLowerCase label in
  if match plant with
     | Some p =>
         truthy p
         && bool_decide (toLowerCase p ∈ toLowerCase <$> ALLOWED_PLANTS)
     | None => false
     end
  then true
  else
    existsb
      (λ e : list ascii * list (list ascii),
         existsb (λ s, includes s lowerLabel) e.2
         || includes (toLowerCase e.1) lowerLabel)
      PLANT_SYNONYMS.

(** Every word whose presence in the lower-cased label makes it an
    allowed one: per plant, its synonyms and its lower-cased name. *)
Definition plant_words : list (list ascii) :=
  PLANT_SYNONYMS ≫= λ e, e.2 ++ [toLowerCase e.1].

(** [needle] occurs in [hay]. *)
Definition occurs_in (needle hay : list ascii) : Prop :=
  ∃ pre post, hay = pre ++ needle ++ post.

(* ------------------------------------------------------------------ *)
(** ** The result panel (src/components/ResultDisplay.tsx) *)

(** ASCII white space, what [trim] removes at both ends. *)
Definition is_space (c : ascii) : bool :=
  let n := N_of_ascii c in (((9 <=? n) && (n <=? 13)) || (n =? 32))%N.

Fixpoint trimStart (s : list ascii) : list ascii :=
  match s with
  | c :: rest => if is_space c then trimStart rest else s
  | [] => []
  end.

Definition trim (s : list ascii) : list ascii :=
  reverse (trimStart (reverse (trimStart s))).

(** [s && s.trim().length > 0] for an optional string. *)
Definition has_text (s : option (list ascii)) : bool :=
  match s with
  | Some s => truthy s && (0 <? length (trim s))%nat
  | None => false
  end.

(** [raw.replace(/_/g, " ")]. *)
Definition underscores_to_spaces (raw : list ascii) : list ascii :=
  (λ c, if bool_decide (c = "_"%char) then " "%char else c) <$> raw.

(** Lines 24-29. *)
Definition formatPredictionLabel (raw : list ascii)
    (fallbackName : option (list ascii)) : list ascii :=
  match fallbackName with
  | Some name => if has_text fallbackName then name
                 else underscores_to_spaces raw
  | None => underscores_to_spaces raw
  end.

(** Lines 3-9: every field is optional. *)
Record DiseaseInfo := mkInfo {
  nama : option (list ascii);
  deskripsi : option (list ascii);
  pengobatan : option (list ascii);
  perawatan : option (list ascii);
  pencegahan : option (list ascii)
}.

(** [keyof DiseaseInfo]. *)
Inductive info_key := Nama | Deskripsi | Pengobatan | Perawatan | Pencegahan.

(** [info?.[key]]. *)
Definition info_field (info : option DiseaseInfo) (key : info_key)
    : option (list ascii) :=
  match info with
  | None => None
  | Some i =>
      match key with
      | Nama => nama i
      | Deskripsi => deskripsi i
      | Pengobatan => pengobatan i
      | Perawatan => perawatan i
      | Pencegahan => pencegahan i
      end
  end.

Definition no_information : list ascii :=
  str "Informasi belum tersedia untuk bagian ini.".

(** Lines 45-50. *)
Definition description (info : option DiseaseInfo) (activeTab : info_key)
    : list ascii :=
  let selected := info_field info activeTab in
  match selected with
  | Some text => if has_text selected then text else no_information
  | None => no_information
  end.

(** Lines 38-43: [Number.isNaN(confidence)] guards the clamp. *)
Definition safeConfidence (confidence : float) : float :=
  if is_nan confidence then 0%float
  else Num.min 100 (Num.max 0 confidence).

(* ------------------------------------------------------------------ *)
(** ** The upload page (src/pages/index.tsx, lines 13-23, 46-190) *)

(** Lines 13-23. *)
Definition ACCEPTED_TYPES : list string :=
  ["image/jpeg"; "image/png"; "image/webp"; "image/jpg"; "image/heic";
   "image/heif"]%string.
Definition MAX_FILE_SIZE_MB : Z := 8.
Definition MAX_FILE_SIZE_BYTES : Z := MAX_FILE_SIZE_MB * 1024 * 1024.

(** What the page reads of a [File]. *)
Record File := mkFile { file_type : string; file_size : Z }.

(** Lines 27-31; the texts are ASCII strings. *)
Record PredictionResult := mkPrediction {
  prediction : list ascii;
  confidence : float;
  info : option DiseaseInfo
}.

(** The state of [HomePage] (lines 47-51), without the preview URL,
    which an effect derives from [file]. *)
Record page := mkPage {
  file : option File;
  isDragging : bool;
  errorMessage : option string;
  result : option PredictionResult
}.

Definition page_init : page := mkPage None false None None.

Definition unsupported_format : string :=
  "Format file tidak didukung. Gunakan JPEG, PNG, atau WebP.".
Definition too_large : string := "Ukuran file melebihi 8MB.".
Definition choose_first : string :=
  "Silakan pilih gambar daun terlebih dahulu.".

(** Lines 122-137. *)
Definition validateAndStoreFile (candidate : File) (s : page) : page :=
  if negb (bool_decide (file_type candidate ∈ ACCEPTED_TYPES)) then
    mkPage (file s) (isDragging s) (Some unsupported_format) (result s)
  else if MAX_FILE_SIZE_BYTES <? file_size candidate then
    mkPage (file s) (isDragging s) (Some too_large) (result s)
  else mkPage (Some candidate) (isDragging s) None None.

(** Lines 139-148: [files] is [null] or a list. *)
Definition handleFileInputChange (files : option (list File)) (s : page)
    : page :=
  match files with
  | None | Some [] => s
  | Some (first :: _) => validateAndStoreFile first s
  end.

(** Lines 150-159. *)
Definition handleDrop (files : option (list File)) (s : page) : page :=
  let s := mkPage (file s) false (errorMessage s) (result s) in
  match files with
  | Some (first :: _) => validateAndStoreFile first s
  | _ => s
  end.

(** Lines 161-174. *)
Definition handleDragOver (s : page) : page :=
  mkPage (file s) true (errorMessage s) (result s).
Definition handleDragLeave (s : page) : page :=
  mkPage (file s) false (errorMessage s) (result s).

(** Lines 176-182 with [onMutate] (lines 90-92): the new state and the
    file handed to the request, if one is sent. *)
Definition handleSubmit (s : page) : page * option File :=
  match file s with
  | None => (mkPage (file s) (isDragging s) (Some choose_first) (result s),
             None)
  | Some f => (mkPage (file s) (isDragging s) None (result s), Some f)
  end.

(** Lines 93-99: how a request ends. *)
Definition onSuccess (data : PredictionResult) (s : page) : page :=
  mkPage (file s) (isDragging s) (errorMessage s) (Some data).
Definition onError (message : string) (s : page) : page :=
  mkPage (file s) (isDragging s) (Some message) None.

(** Lines 184-190. *)
Definition resetSelection (s : page) : page :=
  mkPage None (isDragging s) None None.

(** What can happen to the page. *)
Inductive event :=
| FileInputChange (files : option (list File))
| Drop (files : option (list File))
| DragOver
| DragLeave
| Submit
| Succeeded (data : PredictionResult)
| Failed (message : string)
| ResetSelection.

Definition step (s : page) (e : event) : page :=
  match e with
  | FileInputChange files => handleFileInputChange files s
  | Drop files => handleDrop files s
  | DragOver => handleDragOver s
  | DragLeave => handleDragLeave s
  | Submit => (handleSubmit s).1
  | Succeeded data => onSuccess data s
  | Failed message => onError message s
  | ResetSelection => resetSelection s
  end.

Definition run (events : list event) : page := foldl step page_init events.

(** A file the page may keep and send. *)
Definition acceptable (f : File) : Prop :=
  file_type f ∈ ACCEPTED_TYPES ∧ file_size f ≤ 8 * 1024 * 1024.

(* ------------------------------------------------------------------ *)
(** ** Typed-array laws *)

Section typed_array.
Context {A : Type}.
Implicit Types (a : TypedArray.t A) (i j : Z) (v : A).

Lemma ta_len_set a i v : TypedArray.len (TypedArray.set a i v) = TypedArray.len a.
Proof. unfold TypedArray.set. by destruct (TypedArray.inside a i). Qed.

Lemma ta_inside_set a i j v :
  TypedArray.inside (TypedArray.set a i v) j = TypedArray.inside a j.
Proof. unfold TypedArray.inside. by rewrite ta_len_set. Qed.

Lemma ta_inside_true a i :
  TypedArray.inside a i = true ↔ 0 ≤ i < TypedArray.len a.
Proof. unfold TypedArray.inside. rewrite andb_true_iff. lia. Qed.

Lemma ta_get_set_eq a i v :
  0 ≤ i < TypedArray.len a → TypedArray.get (TypedArray.set a i v) i = Some v.
Proof.
  intros Hi. apply ta_inside_true in Hi.
  unfold TypedArray.get. rewrite ta_inside_set, Hi.
  unfold TypedArray.set. rewrite Hi. simpl. by rewrite lookup_insert_eq.
Qed.

Lemma ta_get_set_ne a i j v :
  i ≠ j → TypedArray.get (TypedArray.set a i v) j = TypedArray.get a j.
Proof.
  intros Hij. unfold TypedArray.get. rewrite ta_inside_set.
  unfold TypedArray.set.
  destruct (TypedArray.inside a i); [|done].
  simpl. by rewrite lookup_insert_ne.
Qed.

Lemma ta_get_make (z : A) n i :
  TypedArray.get (TypedArray.make z n) i
  = if TypedArray.inside (TypedArray.make z n) i then Some z else None.
Proof. unfold TypedArray.get, TypedArray.make; simpl. by rewrite lookup_empty. Qed.
End typed_array.

Lemma flag_mark_eq (a : Uint8Array) i :
  0 ≤ i < TypedArray.len a → flag (TypedArray.set a i true) i = true.
Proof. intros. unfold flag. by rewrite ta_get_set_eq. Qed.

Lemma flag_mark_ne (a : Uint8Array) i j :
  i ≠ j → flag (TypedArray.set a i true) j = flag a j.
Proof. intros. unfold flag. by rewrite ta_get_set_ne. Qed.

Lemma flag_make n i : flag (TypedArray.make false n) i = false.
Proof. unfold flag. rewrite ta_get_make. by destruct TypedArray.inside. Qed.

(* ------------------------------------------------------------------ *)
(** ** The grid and its 4-connected regions *)

Section regions.
Variables (W H : Z) (mask : Uint8Array).

Local Abbreviation inb := (inb W H).
Local Abbreviation idx := (idx W).
Local Abbreviation masked := (masked W H mask).
Local Abbreviation link := (link W H mask).
Local Abbreviation conn := (conn W H mask).
Local Abbreviation region_size := (region_size W H mask).
Local Abbreviation largest_region_size := (largest_region_size W H mask).
Local Abbreviation seen := (seen W).
Local Abbreviation arrays_ok := (arrays_ok W H).
Local Abbreviation core := (core W H mask).
Local Abbreviation closed_on := (closed_on W H mask).
Local Abbreviation outer := (outer W H mask).

Lemma idx_range p : inb p → 0 ≤ idx p < W * H.
Proof. unfold inb, idx. destruct p as [x y]; simpl. nia. Qed.

Lemma idx_inj p q : inb p → inb q → idx p = idx q → p = q.
Proof.
  unfold inb, idx. destruct p as [x y], q as [x' y']; simpl.
  intros ?? E. assert (y = y') by nia. subst. f_equal. lia.
Qed.

Lemma adj_sym p q : adj p q → adj q p.
Proof. unfold adj. lia. Qed.

Lemma elem_of_neighbors cx cy q :
  inb (cx, cy) → q ∈ neighbors W H cx cy ↔ adj (cx, cy) q ∧ inb q.
Proof.
  unfold neighbors, adj, inb. destruct q as [x y]. simpl. intros Hc.
  rewrite !elem_of_app. split.
  - intros Hq.
    destruct (Z.ltb_spec 0 cx), (Z.ltb_spec (cx + 1) W),
      (Z.ltb_spec 0 cy), (Z.ltb_spec (cy + 1) H);
      repeat match goal with
      | Hq : _ ∨ _ |- _ => destruct Hq as [Hq|Hq]
      | Hq : _ ∈ [] |- _ => by apply elem_of_nil in Hq
      | Hq : _ ∈ [_] |- _ =>
          apply list_elem_of_singleton in Hq; inversion Hq; subst; lia
      end.
  - intros [[[-> [->| ->]]|[-> [->| ->]]] Hb].
    + left. rewrite (proj2 (Z.ltb_lt 0 cx)) by lia.
      by apply list_elem_of_singleton.
    + right; left. rewrite (proj2 (Z.ltb_lt (cx + 1) W)) by lia.
      by apply list_elem_of_singleton.
    + right; right; left. rewrite (proj2 (Z.ltb_lt 0 cy)) by lia.
      by apply list_elem_of_singleton.
    + right; right; right. rewrite (proj2 (Z.ltb_lt (cy + 1) H)) by lia.
      by apply list_elem_of_singleton.
Qed.

Lemma conn_masked p q : conn p q → masked q.
Proof.
  intros [Hp Hr]. apply rtc_inv_r in Hr as [<-|(r & _ & [_ Hq])]; done.
Qed.

Lemma conn_refl p : masked p → conn p p.
Proof. by split. Qed.

Lemma conn_step p q r : conn p q → link q r → conn p r.
Proof. intros [? ?] ?. split; [done|]. by eapply rtc_r. Qed.

Lemma conn_trans p q r : conn p q → conn q r → conn p r.
Proof. intros [? ?] [? ?]. split; [done|]. by etrans. Qed.

Lemma conn_sym p q : conn p q → conn q p.
Proof.
  intros [Hp Hr]. induction Hr as [|x y z Hxy Hyz IH].
  - by split.
  - destruct Hxy as [Ha Hy]. eapply conn_trans; [by apply IH|].
    split; [done|]. apply rtc_once. split; [by apply adj_sym|done].
Qed.

(** Lists of in-grid pixels without repetition have at most [W * H]
    entries. *)
Lemma inb_NoDup_length (l : list (Z * Z)) :
  NoDup l → (∀ q, q ∈ l → inb q) → Z.of_nat (length l) ≤ Z.max 0 (W * H).
Proof.
  intros Hnd Hin.
  assert (NoDup (idx <$> l)) as Hnd'.
  { apply NoDup_fmap_2_strong; [|done]. intros ?????. apply idx_inj; auto. }
  assert (idx <$> l ⊆+ seqZ 0 (W * H)) as Hsub.
  { apply NoDup_submseteq; [done|]. intros i [q [-> Hq]]%list_elem_of_fmap.
    apply elem_of_seqZ. pose proof (idx_range q (Hin q Hq)). lia. }
  apply submseteq_length in Hsub.
  rewrite length_fmap, length_seqZ in Hsub. lia.
Qed.

Lemma region_size_unique p n m : region_size p n → region_size p m → n = m.
Proof.
  intros (l & Hl & Hm & <-) (l' & Hl' & Hm' & <-).
  f_equal. apply Permutation_length, NoDup_Permutation; [done..|].
  intros q. by rewrite Hm, Hm'.
Qed.

Lemma region_size_conn p q n : conn p q → region_size p n → region_size q n.
Proof.
  intros Hpq (l & Hl & Hm & <-). exists l. split_and!; [done| |done].
  intros r. rewrite Hm. split; intros ?.
  - eapply conn_trans; [by apply conn_sym|done].
  - by eapply conn_trans.
Qed.

(** *** The flood fill *)

Lemma length_stack_of f : Z.of_nat (length (stack_of f)) = Z.max 0 (sp f).
Proof. unfold stack_of. rewrite length_fmap, length_seqZ. lia. Qed.

Lemma stack_of_mark i f : stack_of (mark i f) = stack_of f.
Proof. done. Qed.

Lemma stack_of_push x y f :
  arrays_ok f → sp f < W * H → stack_of (push x y f) = stack_of f ++ [(x, y)].
Proof.
  intros [? HX HY Hsp] Hlt. unfold stack_of; simpl.
  rewrite seqZ_app, fmap_app by lia. f_equal.
  - apply list_fmap_ext. intros i k [-> ?]%lookup_seqZ. unfold cell; simpl.
    by rewrite !ta_get_set_ne by lia.
  - simpl. unfold cell; simpl. by rewrite !ta_get_set_eq by lia.
Qed.

Lemma stack_of_pop f :
  0 < sp f → stack_of f = stack_of (pop f).2 ++ [(pop f).1].
Proof.
  intros Hsp. unfold stack_of; simpl.
  replace (sp f) with ((sp f - 1) + 1) at 1 by lia.
  rewrite seqZ_app, fmap_app by lia. done.
Qed.

Lemma arrays_ok_push x y f : arrays_ok f → arrays_ok (push x y f).
Proof. intros [????]. split; simpl; rewrite ?ta_len_set; lia. Qed.

Lemma arrays_ok_mark i f : arrays_ok f → arrays_ok (mark i f).
Proof. intros [????]. split; simpl; rewrite ?ta_len_set; lia. Qed.

Lemma seen_mark_eq f p : arrays_ok f → inb p → seen (mark (idx p) f) p.
Proof.
  intros [Hv _ _ _] Hp. apply flag_mark_eq. rewrite Hv.
  by apply idx_range.
Qed.

Lemma seen_mark f p q :
  arrays_ok f → inb p → inb q →
  seen (mark (idx p) f) q ↔ q = p ∨ seen f q.
Proof.
  intros Hok Hp Hq. unfold seen; simpl.
  destruct (decide (idx p = idx q)) as [E|E].
  - apply idx_inj in E as ->; [|done..]. split; [by left|].
    intros _. by apply seen_mark_eq.
  - rewrite flag_mark_ne by done. split; [by right|].
    intros [->|?]; done.
Qed.

Section one_fill.
Variables (V0 : Z * Z → Prop) (p0 : Z * Z).

Local Abbreviation core := (core V0 p0).

Lemma core_room f D n :
  core f D → inb n → n ∉ D ++ stack_of f → sp f < W * H.
Proof.
  intros [Hok Hnd Hc _ _] Hn Hnot.
  assert (NoDup (n :: D ++ stack_of f)) as Hnd' by by apply NoDup_cons.
  apply inb_NoDup_length in Hnd'.
  - simpl in Hnd'. rewrite length_app in Hnd'.
    pose proof (length_stack_of f). pose proof (ok_sp Hok).
    pose proof (idx_range n Hn). lia.
  - intros q [->|Hq]%elem_of_cons; [done|].
    apply Hc in Hq as [Hq _]. apply conn_masked in Hq. by destruct Hq.
Qed.

Lemma visit_core f D c n :
  core f D → c ∈ D → adj c n → inb n →
  core (visit W mask f n) D
  ∧ (masked n → seen (visit W mask f n) n)
  ∧ (∀ q, inb q → seen f q → seen (visit W mask f n) q).
Proof.
  intros Hcore Hc Hadj Hn. unfold visit.
  replace (n.2 * W + n.1) with (idx n) by done.
  destruct (flag (visited f) (idx n)) eqn:Hv; simpl.
  { split_and!; [done|by intros _|done]. }
  destruct (flag mask (idx n)) eqn:Hm; simpl.
  2:{ split_and!; [done| |done]. intros [_ ?]. congruence. }
  assert (masked n) as Hmn by done.
  assert (¬ V0 n ∧ n ∉ D ++ stack_of f) as [HnV Hnl].
  { pose proof (proj2 (core_seen Hcore n Hn)) as Hs.
    unfold seen in Hs. rewrite Hv in Hs. split; intros ?; by discriminate Hs; auto. }
  pose proof (core_room _ _ _ Hcore Hn Hnl) as Hroom.
  destruct Hcore as [Hok Hnd Hconn Hseen Hseed].
  assert (stack_of (push n.1 n.2 (mark (idx n) f)) = stack_of f ++ [n]) as Hst.
  { rewrite stack_of_push; [|by apply arrays_ok_mark|done].
    by destruct n. }
  assert (∀ q, inb q → seen (push n.1 n.2 (mark (idx n) f)) q ↔ q = n ∨ seen f q)
    as Hseen'.
  { intros q Hq. by apply (seen_mark f n q). }
  split_and!.
  - split.
    + by apply arrays_ok_push, arrays_ok_mark.
    + rewrite Hst, (assoc_L (++)).
      apply NoDup_app. split_and!; [done| |apply NoDup_singleton].
      intros q Hq ->%list_elem_of_singleton. done.
    + rewrite Hst, (assoc_L (++)). intros q [Hq| ->%list_elem_of_singleton]%elem_of_app.
      * by apply Hconn.
      * split; [|done]. eapply conn_step; [apply Hconn; apply elem_of_app; by left|].
        done.
    + intros q Hq. rewrite Hseen', Hseen, Hst, (assoc_L (++)) by done.
      rewrite (elem_of_app _ [n]), list_elem_of_singleton. tauto.
    + rewrite Hst, (assoc_L (++)), elem_of_app. by left.
  - intros _. apply Hseen'; auto.
  - intros q Hq Hs. apply Hseen'; auto.
Qed.

Lemma visits_core c ns : ∀ f D,
  core f D → c ∈ D → (∀ n, n ∈ ns → adj c n ∧ inb n) →
  core (foldl (visit W mask) f ns) D
  ∧ (∀ n, n ∈ ns → masked n → seen (foldl (visit W mask) f ns) n)
  ∧ (∀ q, inb q → seen f q → seen (foldl (visit W mask) f ns) q).
Proof.
  induction ns as [|n ns IH]; intros f D Hcore Hc Hns; simpl.
  { split_and!; [done| |done]. by intros n ?%elem_of_nil. }
  destruct (Hns n) as [Hadj Hn]; [by left|].
  destruct (visit_core f D c n Hcore Hc Hadj Hn) as (Hcore' & Hnew & Hmono).
  destruct (IH (visit W mask f n) D Hcore' Hc) as (Hcore'' & Hall & Hmono').
  { intros ??. apply Hns. by right. }
  split_and!; [done| |by auto].
  intros q [->|Hq]%elem_of_cons Hm; [|by auto].
  apply Hmono'; auto.
Qed.

Lemma flood_core fuel : ∀ f D,
  core f D → closed_on f D →
  W * H ≤ Z.of_nat fuel + Z.of_nat (length D) →
  ∃ D', let r := flood fuel W H mask f (Z.of_nat (length D)) in
        core r.1 D' ∧ closed_on r.1 D' ∧ sp r.1 = 0
        ∧ r.2 = Z.of_nat (length D')
        ∧ (∀ q, inb q → seen f q → seen r.1 q).
Proof.
  induction fuel as [|fuel IH]; intros f D Hcore Hcl Hfuel; cbn [flood].
  - exists D. simpl. split_and!; [done..| |done|done].
    pose proof (core_nodup Hcore) as Hnd.
    apply inb_NoDup_length in Hnd.
    + rewrite length_app in Hnd. pose proof (length_stack_of f).
      pose proof (ok_sp (core_ok Hcore)). lia.
    + intros q Hq. apply (core_conn Hcore) in Hq as [Hq _].
      apply conn_masked in Hq. by destruct Hq.
  - destruct (Z.ltb_spec 0 (sp f)) as [Hsp|Hsp].
    2:{ exists D. pose proof (ok_sp (core_ok Hcore)).
        simpl. split_and!; [done|done|lia|done|done]. }
    pose proof (stack_of_pop f Hsp) as Hpop.
    destruct (pop f) as [[cx cy] f1] eqn:Epop. simpl in Hpop.
    set (c := (cx, cy)) in *.
    assert (visited f1 = visited f) as Hvis.
    { unfold pop in Epop. by inversion Epop. }
    assert (arrays_ok f1) as Hok1.
    { unfold pop in Epop. inversion Epop; subst.
      destruct (core_ok Hcore). split; simpl; try done. lia. }
    assert ((D ++ [c]) ++ stack_of f1 ≡ₚ D ++ stack_of f) as Hperm.
    { rewrite Hpop, <-(assoc_L (++)). f_equiv. apply Permutation_app_comm. }
    assert (core f1 (D ++ [c])) as Hcore1.
    { destruct Hcore as [Hok Hnd Hconn Hseen Hseed]. split.
      - done.
      - by rewrite Hperm.
      - intros q. rewrite Hperm. apply Hconn.
      - intros q Hq. rewrite Hperm. unfold seen. rewrite Hvis. by apply Hseen.
      - by rewrite Hperm. }
    assert (inb c) as Hc.
    { destruct (core_conn Hcore1 c) as [Hq _].
      - rewrite !elem_of_app, list_elem_of_singleton. auto.
      - apply conn_masked in Hq. by destruct Hq. }
    destruct (visits_core c (neighbors W H cx cy) f1 (D ++ [c]) Hcore1)
      as (Hcore2 & Hall & Hmono).
    { rewrite elem_of_app, list_elem_of_singleton. auto. }
    { intros n. by apply elem_of_neighbors. }
    set (f2 := foldl (visit W mask) f1 (neighbors W H cx cy)) in *.
    destruct (IH f2 (D ++ [c]) Hcore2) as (D' & HD').
    { intros d q [Hd| ->%list_elem_of_singleton]%elem_of_app Hl.
      - apply Hmono; [by destruct Hl as [_ [? _]]|].
        unfold seen. rewrite Hvis. by eapply Hcl.
      - destruct Hl as [Ha Hm]. apply Hall; [|done].
        apply elem_of_neighbors; [done|]. split; [done|by destruct Hm]. }
    { rewrite length_app; simpl. lia. }
    exists D'. cbn zeta in HD' |- *.
    replace (Z.of_nat (length (D ++ [c]))) with (Z.of_nat (length D) + 1)
      in HD' by (rewrite length_app; simpl; lia).
    destruct HD' as (? & ? & ? & ? & Hm2). split_and!; [done..|].
    intros q Hq Hs. apply Hm2, Hmono; [done..|].
    unfold seen. by rewrite Hvis.
Qed.

(** When the stack is empty the popped pixels are exactly the region
    of the seed. *)
Lemma fill_done f D :
  (∀ q, V0 q → masked q) →
  (∀ a b, V0 a → link a b → V0 b) →
  core f D → closed_on f D → sp f = 0 →
  ∀ q, q ∈ D ↔ conn p0 q.
Proof.
  intros HVm HVc Hcore Hcl Hsp.
  assert (stack_of f = []) as Hst.
  { unfold stack_of. by rewrite Hsp. }
  destruct Hcore as [Hok Hnd Hconn Hseen Hseed].
  rewrite Hst, app_nil_r in *.
  assert (∀ a b, conn a b → V0 b → V0 a) as Hback.
  { intros a b Hab%conn_sym. destruct Hab as [_ Hr].
    induction Hr as [|x y z Hxy _ IH]; [done|].
    intros Hx. apply IH. by eapply HVc. }
  intros q. split; [intros Hq; by apply Hconn|].
  intros [Hp Hr]. revert q Hr. apply rtc_ind_r; [done|].
  intros y z Hy Hyz HyD.
  assert (conn p0 z) as Hz.
  { eapply conn_step; [|exact Hyz]. split; assumption. }
  pose proof (Hcl y z HyD Hyz) as Hs.
  apply Hseen in Hs as [HV|?]; [|done|by destruct Hyz as [_ [? _]]].
  destruct (Hconn p0 Hseed) as [_ []]. exact (Hback p0 z Hz HV).
Qed.
End one_fill.

(** *** The scan over all pixels *)

Lemma outer_init : outer (fill_init (W * H)) 0.
Proof.
  assert (∀ q, ¬ seen (fill_init (W * H)) q) as Hno.
  { intros q. unfold seen, fill_init; simpl. by rewrite flag_make. }
  split; try done.
  - intros ?? []%Hno.
  - intros ??? []%Hno.
  - intros ?? []%Hno.
  - right. split; [|done]. intros ??. apply Hno.
Qed.

Lemma label_at_spec f largest x y :
  outer f largest → inb (x, y) →
  let r := label_at W H mask y (f, largest) x in
  outer r.1 r.2
  ∧ (∀ q, inb q → seen f q → seen r.1 q)
  ∧ (masked (x, y) → seen r.1 (x, y)).
Proof.
  intros Hout Hp. unfold label_at.
  set (p0 := (x, y)) in *.
  replace (y * W + x) with (idx p0) by done.
  destruct (flag mask (idx p0)) eqn:Hm; simpl.
  2:{ split_and!; [done..|]. intros [_ ?]. congruence. }
  destruct (flag (visited f) (idx p0)) eqn:Hv; simpl.
  { split_and!; done. }
  destruct Hout as [Hok Hsp HVm HVc Hbound Hleast].
  assert (masked p0) as Hmp by done.
  set (V0 := λ q, inb q ∧ seen f q).
  assert (¬ V0 p0) as HnV.
  { intros [_ Hs]. unfold seen in Hs. congruence. }
  assert (stack_of f = []) as Hst0 by (unfold stack_of; by rewrite Hsp).
  set (f0 := mark (idx p0) (push x y f)).
  assert (stack_of f0 = [p0]) as Hst.
  { unfold f0. rewrite stack_of_mark, stack_of_push, Hst0; [done..|].
    pose proof (idx_range p0 Hp). lia. }
  assert (∀ q, inb q → seen f0 q ↔ q = p0 ∨ seen f q) as Hseen0.
  { intros q Hq. apply (seen_mark (push x y f) p0 q); [|done..].
    by apply arrays_ok_push. }
  assert (core V0 p0 f0 []) as Hcore.
  { split; simpl; rewrite ?Hst.
    - by apply arrays_ok_mark, arrays_ok_push.
    - apply NoDup_singleton.
    - intros q ->%list_elem_of_singleton. split; [by apply conn_refl|done].
    - intros q Hq. rewrite Hseen0, list_elem_of_singleton by done.
      unfold V0. tauto.
    - by apply list_elem_of_singleton. }
  destruct (flood_core V0 p0 (Z.to_nat (W * H)) f0 [] Hcore)
    as (D' & HD').
  { by intros ?? ?%elem_of_nil. }
  { simpl. lia. }
  change (Z.of_nat (length (@nil (Z * Z)))) with 0 in HD'. cbn zeta in HD'.
  destruct (flood (Z.to_nat (W * H)) W H mask f0 0) as [f' areaComp] eqn:Efl.
  cbn [fst snd] in HD'. destruct HD' as (Hcore' & Hcl' & Hsp' & Harea & Hmono).
  assert (stack_of f' = []) as Hst' by (unfold stack_of; by rewrite Hsp').
  pose proof (fill_done V0 p0 f' D') as Hreg.
  specialize (Hreg ltac:(intros q []; auto)).
  specialize (Hreg ltac:(intros a b [] Hl; split;
                         [by destruct Hl as [_ []]|by eapply HVc])).
  specialize (Hreg Hcore' Hcl' Hsp').
  destruct Hcore' as [Hok' Hnd' Hconn' Hseen' Hseed'].
  rewrite Hst', app_nil_r in *.
  assert (region_size p0 areaComp) as Hrs.
  { exists D'. by split_and!. }
  assert (1 ≤ areaComp) as Hpos.
  { rewrite Harea. destruct D'; [by apply elem_of_nil in Hseed'|simpl; lia]. }
  set (largest' := if largest <? areaComp then areaComp else largest).
  assert (largest ≤ largest' ∧ areaComp ≤ largest') as [Hle1 Hle2].
  { unfold largest'. destruct (Z.ltb_spec largest areaComp); lia. }
  simpl. split_and!.
  - split.
    + done.
    + done.
    + intros q Hq [[_ Hs]|Hs]%Hseen'; [by apply HVm| |done].
      by apply Hreg, conn_masked in Hs.
    + intros a b Ha [[_ Hs]|Hs]%Hseen' Hl; [|by eapply Hcl'|done].
      apply Hseen'; [by destruct Hl as [_ []]|]. left.
      split; [by destruct Hl as [_ []]|by eapply HVc].
    + intros q Hq [[_ Hs]|Hs]%Hseen'; [| |done].
      * destruct (Hbound q Hq Hs) as (n & ? & ?). exists n. split; [done|lia].
      * exists areaComp. split; [|done].
        eapply region_size_conn; [by apply Hreg|done].
    + left. unfold largest'. destruct (Z.ltb_spec largest areaComp).
      * by exists p0.
      * destruct Hleast as [?|[_ ->]]; [done|lia].
  - intros q Hq Hs. apply Hmono; [done|]. apply Hseen0; auto.
  - intros _. apply Hseen'; auto.
Qed.

Lemma label_row_spec y xs : ∀ f largest,
  outer f largest → (∀ x, x ∈ xs → inb (x, y)) →
  let r := foldl (label_at W H mask y) (f, largest) xs in
  outer r.1 r.2
  ∧ (∀ q, inb q → seen f q → seen r.1 q)
  ∧ (∀ x, x ∈ xs → masked (x, y) → seen r.1 (x, y)).
Proof.
  induction xs as [|x xs IH]; intros f largest Hout Hxs; cbn [foldl].
  { simpl. split_and!; [done..|]. by intros ? ?%elem_of_nil. }
  destruct (label_at_spec f largest x y Hout) as (Hout' & Hmono & Hnew).
  { apply Hxs. by left. }
  destruct (label_at W H mask y (f, largest) x) as [f' largest'].
  destruct (IH f' largest' Hout') as (Hout'' & Hmono' & Hall).
  { intros ??. apply Hxs. by right. }
  simpl in *. split_and!; [done|by auto|].
  intros x' [->|Hx]%elem_of_cons Hm; [|by auto].
  apply Hmono'; [by destruct Hm|auto].
Qed.

Lemma label_rows_spec ys : ∀ f largest,
  outer f largest → (∀ y, y ∈ ys → 0 ≤ y < H) →
  let r := foldl (label_row W H mask) (f, largest) ys in
  outer r.1 r.2
  ∧ (∀ q, inb q → seen f q → seen r.1 q)
  ∧ (∀ q, inb q → q.2 ∈ ys → masked q → seen r.1 q).
Proof.
  induction ys as [|y ys IH]; intros f largest Hout Hys; cbn [foldl].
  { simpl. split_and!; [done..|]. by intros ?? ?%elem_of_nil. }
  pose proof (label_row_spec y (seqZ 0 W) f largest Hout) as Hrow.
  change (foldl (label_at W H mask y) (f, largest) (seqZ 0 W))
    with (label_row W H mask (f, largest) y) in Hrow.
  destruct Hrow as (Hout' & Hmono & Hnew).
  { intros x Hx%elem_of_seqZ. split; simpl; [lia|]. apply Hys. by left. }
  destruct (label_row W H mask (f, largest) y) as [f' largest'].
  destruct (IH f' largest' Hout') as (Hout'' & Hmono' & Hall).
  { intros ??. apply Hys. by right. }
  simpl in *. split_and!; [done|by auto|].
  intros [qx qy] Hq [E|Hy]%elem_of_cons Hm; [|by auto].
  simpl in E; subst qy. apply Hmono'; [done|]. apply Hnew; [|done].
  apply elem_of_seqZ. destruct Hq; simpl in *; lia.
Qed.

(** The labelling pass returns the size of the largest region. *)
Lemma largestComp_largest_region count :
  (count ≤ 0 → ∀ p, ¬ masked p) →
  largest_region_size (largestComp W H mask count).
Proof.
  intros Hcount. unfold largestComp.
  destruct (Z.ltb_spec 0 count) as [Hc|Hc].
  2:{ split; [|right; auto]. intros p Hp. by destruct (Hcount Hc p). }
  destruct (label_rows_spec (seqZ 0 H) (fill_init (W * H)) 0 outer_init)
    as (Hout & _ & Hall).
  { intros y Hy%elem_of_seqZ. lia. }
  destruct (foldl _ _ _) as [f largest]. simpl in *.
  assert (∀ q, masked q → seen f q) as Hs.
  { intros q Hq. apply Hall; [by destruct Hq| |done].
    apply elem_of_seqZ. destruct Hq as [[_ ?] _]. lia. }
  destruct Hout as [_ _ _ _ Hbound Hleast]. split.
  - intros p Hp. apply Hbound; [by destruct Hp|auto].
  - destruct Hleast as [?|[Hno ->]]; [by left|right].
    split; [|done]. intros p Hp. apply (Hno p); [by destruct Hp|auto].
Qed.

(** The size of the largest region is determined by the mask alone. *)
Lemma largest_region_size_unique n m :
  largest_region_size n → largest_region_size m → n = m.
Proof.
  intros [Hn1 Hn2] [Hm1 Hm2].
  destruct Hn2 as [(p & Hp & Hpn)|[Hno ->]], Hm2 as [(q & Hq & Hqm)|[Hno' ->]].
  - destruct (Hm1 p Hp) as (k & Hk & ?), (Hn1 q Hq) as (k' & Hk' & ?).
    pose proof (region_size_unique p n k Hpn Hk).
    pose proof (region_size_unique q m k' Hqm Hk'). lia.
  - by destruct (Hno' p).
  - by destruct (Hno q).
  - done.
Qed.
End regions.

(* ------------------------------------------------------------------ *)
(** ** A grid whose every pixel is masked *)

Section full_grid.
Variables (W H : Z) (mask : Uint8Array).
Hypothesis Hfull : ∀ p, inb W H p → masked W H mask p.
Hypotheses (HW : 0 < W) (HH : 0 < H).

Local Abbreviation all_pixels := (all_pixels W H).

Lemma full_link p q : adj p q → inb W H q → link W H mask p q.
Proof. intros. split; auto. Qed.

Lemma full_conn_row (n : nat) y :
  inb W H (Z.of_nat n, y) → conn W H mask (0, y) (Z.of_nat n, y).
Proof.
  induction n as [|n IH]; intros Hn.
  - by apply conn_refl, Hfull.
  - eapply conn_step; [apply IH|apply full_link; [|done]].
    + unfold inb in *; cbn [fst snd] in *; lia.
    + unfold adj; cbn [fst snd]. lia.
Qed.

Lemma full_conn_col (n : nat) :
  inb W H (0, Z.of_nat n) → conn W H mask (0, 0) (0, Z.of_nat n).
Proof.
  induction n as [|n IH]; intros Hn.
  - by apply conn_refl, Hfull.
  - eapply conn_step; [apply IH|apply full_link; [|done]].
    + unfold inb in *; cbn [fst snd] in *; lia.
    + unfold adj; cbn [fst snd]. lia.
Qed.

Lemma full_conn_origin q : inb W H q → conn W H mask (0, 0) q.
Proof.
  destruct q as [x y]. intros Hq.
  assert (0 ≤ x ∧ 0 ≤ y) as [Hx Hy] by (unfold inb in Hq; cbn [fst snd] in Hq; lia).
  pose proof (full_conn_col (Z.to_nat y)) as Hc.
  pose proof (full_conn_row (Z.to_nat x) y) as Hr.
  rewrite Z2Nat.id in Hc, Hr by done.
  apply (conn_trans W H mask (0, 0) (0, y) (x, y)); [apply Hc|by apply Hr].
  unfold inb in *; cbn [fst snd] in *; lia.
Qed.

Lemma full_conn p q : inb W H p → inb W H q → conn W H mask p q.
Proof.
  intros Hp Hq. eapply conn_trans; [|by apply full_conn_origin].
  by apply conn_sym, full_conn_origin.
Qed.

Lemma elem_of_all_pixels q : q ∈ all_pixels ↔ inb W H q.
Proof.
  unfold all_pixels. rewrite list_elem_of_fmap. split.
  - intros (i & -> & Hi%elem_of_seqZ). unfold inb; simpl.
    pose proof (Z.mod_pos_bound i W). split; [lia|].
    split; [apply Z.div_pos; lia|].
    apply Z.div_lt_upper_bound; lia.
  - intros Hq. exists (idx W q). pose proof (idx_range W H q Hq).
    split; [|apply elem_of_seqZ; lia].
    destruct q as [x y], Hq as [? ?]; unfold idx; simpl in *.
    rewrite Z.add_comm, Z.mod_add, Z.div_add by lia.
    rewrite Z.mod_small, Z.div_small by lia. f_equal; lia.
Qed.

Lemma NoDup_all_pixels : NoDup all_pixels.
Proof.
  apply NoDup_fmap_2_strong; [|apply NoDup_seqZ].
  intros i j Hi%elem_of_seqZ Hj%elem_of_seqZ E.
  inversion E as [[Em Ed]].
  rewrite (Z.div_mod i W), (Z.div_mod j W) by lia. congruence.
Qed.

Lemma full_region_size p : inb W H p → region_size W H mask p (W * H).
Proof.
  intros Hp. exists all_pixels. split_and!.
  - apply NoDup_all_pixels.
  - intros q. rewrite elem_of_all_pixels. split.
    + by apply full_conn.
    + intros Hq%conn_masked. by destruct Hq.
  - unfold all_pixels. rewrite length_fmap, length_seqZ.
    pose proof (idx_range W H p Hp). lia.
Qed.

Lemma full_largest n : largest_region_size W H mask n → n = W * H.
Proof.
  intros [_ [(p & Hp & Hn)|[Hno _]]].
  - eapply region_size_unique; [done|]. apply full_region_size.
    by destruct Hp.
  - destruct (Hno (0, 0)). apply Hfull. split; simpl; lia.
Qed.
End full_grid.

(* ------------------------------------------------------------------ *)
(** ** The pixel pass *)

Lemma scan_loop_inv (Q : scan → Prop) :
  (∀ idx r g b st, Q st → Q (scan_pixel idx r g b st)) →
  ∀ bytes idx st, Q st → Q (scan_loop bytes idx st).
Proof.
  intros Hstep bytes.
  induction (Nat.lt_wf_0_projected length bytes) as [bytes _ IH].
  intros idx st HQ. destruct bytes as [|r [|g [|b [|a rest]]]]; simpl; try done.
  apply IH; [simpl; lia|]. by apply Hstep.
Qed.

Lemma scan_image_ok img : scan_ok (scan_image img).
Proof.
  unfold scan_image. apply scan_loop_inv.
  - intros idx r g b st [Hc Hf Hh]. unfold scan_pixel.
    destruct (isGreenish _); split; simpl; try done; try lia.
    rewrite length_app; simpl. lia.
  - split; simpl; [done| |done]. intros _ i. apply flag_make.
Qed.

Lemma largestComp_scan img :
  let st := scan_image img in
  largest_region_size (width img) (height img) (greenMask st)
    (largestComp (width img) (height img) (greenMask st) (greenCount st)).
Proof.
  intros st. apply largestComp_largest_region.
  intros Hc p [_ Hp]. pose proof (scan_image_ok img) as [_ Hf _].
  rewrite (Hf Hc) in Hp. done.
Qed.

Lemma scan_solid r g b :
  isGreenish (toHSV (Num.of_Z r) (Num.of_Z g) (Num.of_Z b)) = true →
  ∀ alphas idx st,
    0 ≤ idx →
    (∀ i, 0 ≤ i < idx → i < TypedArray.len (greenMask st) →
          flag (greenMask st) i = true) →
    let st' := scan_loop (solid r g b alphas) idx st in
    greenCount st' = greenCount st + Z.of_nat (length alphas)
    ∧ TypedArray.len (greenMask st') = TypedArray.len (greenMask st)
    ∧ (∀ i, 0 ≤ i < idx + Z.of_nat (length alphas) →
            i < TypedArray.len (greenMask st) →
            flag (greenMask st') i = true).
Proof.
  intros Hgreen. induction alphas as [|a alphas IH]; intros idx st Hidx Hflags.
  { simpl. split_and!; [lia|done|]. intros i ??. apply Hflags; lia. }
  change (solid r g b (a :: alphas)) with (r :: g :: b :: a :: solid r g b alphas).
  cbn [scan_loop].
  set (st1 := scan_pixel idx r g b st).
  assert (greenCount st1 = greenCount st + 1
          ∧ greenMask st1 = TypedArray.set (greenMask st) idx true) as [Hc Hm].
  { unfold st1, scan_pixel; simpl. by rewrite Hgreen. }
  destruct (IH (idx + 1) st1) as (Hc' & Hl' & Hf'); [lia| |].
  { rewrite Hm, ta_len_set. intros i ??.
    destruct (decide (i = idx)) as [->|].
    - apply flag_mark_eq. lia.
    - rewrite flag_mark_ne by done. apply Hflags; lia. }
  cbn zeta. rewrite Hc', Hl', Hc, Hm, ta_len_set.
  split_and!; [simpl length; lia|done|].
  intros i ??. apply Hf'; [simpl length in *; lia|].
  by rewrite Hm, ta_len_set.
Qed.

(* ------------------------------------------------------------------ *)
(** ** Ranges checked by evaluation *)

Lemma all_between_nat lo P (k : nat) :
  let r := Nat.iter k (λ s : Z * bool, (s.1 + 1, s.2 && P s.1)) (lo, true) in
  r.1 = lo + Z.of_nat k
  ∧ (r.2 = true → ∀ n, lo ≤ n < lo + Z.of_nat k → P n = true).
Proof.
  induction k as [|k [IH1 IH2]]; cbn zeta.
  { split; [simpl; lia|]. intros _ n ?. lia. }
  rewrite Nat.iter_succ. cbn [fst snd]. rewrite IH1. split; [lia|].
  intros [Hk HP]%andb_prop n Hn.
  destruct (decide (n = lo + Z.of_nat k)) as [->|]; [done|].
  apply IH2; [done|lia].
Qed.

Lemma all_between_spec lo len P n :
  all_between lo len P = true → lo ≤ n < lo + len → P n = true.
Proof.
  unfold all_between. intros Hall Hn.
  rewrite Zmisc.iter_nat_of_Z in Hall by lia.
  apply (proj2 (all_between_nat lo P (Z.abs_nat len)) Hall). lia.
Qed.

Lemma full_ratio_checked : all_between count_lo count_len full_ratio_check = true.
Proof. vm_compute. reflexivity. Qed.

Lemma zero_ratio_checked : all_between count_lo count_len zero_ratio_check = true.
Proof. vm_compute. reflexivity. Qed.

Lemma decoded_count img :
  decoder_dims img → MIN_AREA ≤ width img * height img →
  count_lo ≤ width img * height img < count_lo + count_len.
Proof.
  unfold decoder_dims, count_lo, count_len, maxDim, MIN_AREA. nia.
Qed.

(* ------------------------------------------------------------------ *)
(** ** The decision, phase by phase *)

Lemma passes_guards_spec img :
  passes_guards img = true ↔ ∀ g, guard_fires img (analyse img) g = false.
Proof.
  unfold passes_guards, first_failing_guard, guard_order.
  generalize (analyse img). intros F. cbn [List.find]. split.
  - intros Hp g.
    destruct (guard_fires img F TooSmall) eqn:?; [done|].
    destruct (guard_fires img F TooExtreme) eqn:?; [done|].
    destruct (guard_fires img F NotLeaf) eqn:?; [done|].
    destruct (guard_fires img F NoMainLeaf) eqn:?; [done|].
    destruct (guard_fires img F SingleColor) eqn:?; [done|].
    by destruct g.
  - intros Hg. by rewrite !Hg.
Qed.

Lemma validate_reaches_phase3 img :
  passes_guards img = true →
  validateLeafImage (Normal img)
  = if 3 <=? score (analyse img) then accept
    else reject (most_specific_reason (analyse img)).
Proof.
  intros Hp. pose proof (proj1 (passes_guards_spec img) Hp) as Hg.
  pose proof (Hg TooSmall) as H1. pose proof (Hg TooExtreme) as H2.
  pose proof (Hg NotLeaf) as H3. pose proof (Hg NoMainLeaf) as H4.
  pose proof (Hg SingleColor) as H5. cbn [guard_fires] in H1, H2, H3, H4, H5.
  unfold validateLeafImage, validate_body, MIN_AREA, MAX_ASPECT.
  rewrite H1, H2. unfold decide_leaf. rewrite H3, H4, H5.
  destruct (3 <=? score (analyse img)); [done|].
  unfold most_specific_reason, rejection_reasons. cbn [List.find fst]. rewrite H4.
  destruct (isVeryUniform _); [done|].
  destruct (paletteTooSmall _ || _); [done|].
  destruct (0.60 <? edgeDensity _)%float; [done|].
  by destruct (edgeDensity _ <? 0.01)%float.
Qed.

Lemma score_signals F : score F = held (signals F).
Proof.
  unfold score, held, signals, signal2, signal3, signal4, signal5. simpl.
  destruct (negb (isVeryUniform F) || negb (paletteTooSmall F)),
    ((edgeDensity F =? 0)%float || _),
    (match hueStdTooLow F with None => true | Some b => negb b end),
    (topShare F <=? 0.70)%float; reflexivity.
Qed.

Lemma greenRatio_analyse img :
  greenRatio (analyse img)
  = (Num.of_Z (greenCount (scan_image img))
     / Num.of_Z (width img * height img))%float.
Proof. reflexivity. Qed.

Lemma largestCompRatio_analyse img :
  largestCompRatio (analyse img)
  = (Num.of_Z (largestComp (width img) (height img)
                 (greenMask (scan_image img)) (greenCount (scan_image img)))
     / Num.of_Z (width img * height img))%float.
Proof. reflexivity. Qed.

Lemma hueStdTooLow_analyse img :
  hueStdTooLow (analyse img) = hueStdTooLow_of (hueValues (scan_image img)).
Proof. reflexivity. Qed.

Lemma length_solid r g b alphas :
  length (solid r g b alphas) = (4 * length alphas)%nat.
Proof.
  induction alphas as [|a l IH]; [done|].
  change (solid r g b (a :: l)) with (r :: g :: b :: a :: solid r g b l).
  simpl length. lia.
Qed.

(* ------------------------------------------------------------------ *)
(** ** The program on the store against the functions *)

Lemma store_lookup (σ0 objs : store) (k : nat) :
  (σ0 ++ objs) !! (length σ0 + k)%nat = objs !! k.
Proof. rewrite lookup_app_r by lia. f_equal. lia. Qed.

Lemma store_insert (σ0 objs : store) (k : nat) o :
  <[(length σ0 + k)%nat := o]> (σ0 ++ objs) = σ0 ++ <[k := o]> objs.
Proof. apply insert_app_r. Qed.

Lemma store_alloc (σ0 objs : store) o :
  Store.alloc o (σ0 ++ objs)
  = ((length σ0 + length objs)%nat, σ0 ++ (objs ++ [o])).
Proof. unfold Store.alloc. by rewrite length_app, <-app_assoc. Qed.

Ltac store_ops :=
  unfold Store.set_f32, Store.get_f32, Store.set_u8, Store.get_u8,
    Store.set_i32, Store.get_i32, Store.push, Store.elements,
    Store.map_get, Store.map_set, Store.entries;
  repeat (rewrite ?store_lookup, ?store_insert;
          cbn [lookup list_lookup insert list_insert app scan_objects
               fill_objects]).

Lemma run_scan_pixel_sim σ0 more idx r g b st :
  run_scan_pixel (pass_refs_at (length σ0)) idx r g b (tally_of st)
    (σ0 ++ scan_objects st ++ more)
  = (tally_of (scan_pixel idx r g b st),
     σ0 ++ scan_objects (scan_pixel idx r g b st) ++ more).
Proof.
  unfold run_scan_pixel, pass_refs_at.
  cbn [r_gray r_greenMask r_hueValues r_paletteCounts]. store_ops.
  unfold scan_pixel, tally_of. cbn [t_greenCount t_rSum t_gSum t_bSum t_rSq t_gSq t_bSq gray greenMask hueValues paletteCounts greenCount rSum gSum bSum rSq gSq bSq].
  destruct (isGreenish _); store_ops; reflexivity.
Qed.

Lemma run_scan_loop_sim σ0 more bytes : ∀ idx st,
  run_scan_loop (pass_refs_at (length σ0)) bytes idx (tally_of st)
    (σ0 ++ scan_objects st ++ more)
  = (tally_of (scan_loop bytes idx st),
     σ0 ++ scan_objects (scan_loop bytes idx st) ++ more).
Proof.
  induction (Nat.lt_wf_0_projected length bytes) as [bytes _ IH].
  intros idx st. destruct bytes as [|r [|g [|b [|a rest]]]]; try done.
  cbn [run_scan_loop scan_loop]. rewrite run_scan_pixel_sim.
  apply IH. simpl. lia.
Qed.

Section fill_on_store.
Variables (σ0 : store) (st : scan) (W H : Z).
Local Abbreviation ρ := (pass_refs_at (length σ0)).
Local Abbreviation φ := (fill_refs_at (length σ0)).
Local Abbreviation state := (fill_state σ0 st).
Local Abbreviation mask := (greenMask st).

Lemma run_push_sim x y f : run_push φ x y (state f) = state (push x y f).
Proof.
  unfold run_push, fill_state, fill_refs_at.
  cbn [r_visited r_stackX r_stackY]. by store_ops.
Qed.

Lemma run_pop_sim f : run_pop φ (state f) = ((pop f).1, state (pop f).2).
Proof.
  unfold run_pop, fill_state, fill_refs_at.
  cbn [r_visited r_stackX r_stackY]. by store_ops.
Qed.

Lemma run_mark_sim i f :
  ((state f).1, Store.set_u8 (r_visited φ) i (state f).2) = state (mark i f).
Proof.
  unfold fill_state, fill_refs_at.
  cbn [r_visited r_stackX r_stackY fst snd]. by store_ops.
Qed.

Lemma get_mask_sim f i : Store.get_u8 (state f).2 (r_greenMask ρ) i = flag mask i.
Proof.
  unfold fill_state, pass_refs_at. cbn [r_greenMask snd]. by store_ops.
Qed.

Lemma get_visited_sim f i :
  Store.get_u8 (state f).2 (r_visited φ) i = flag (visited f) i.
Proof.
  unfold fill_state, fill_refs_at. cbn [r_visited snd]. by store_ops.
Qed.

Lemma run_visit_sim f n :
  run_visit W ρ φ (state f) n = state (visit W mask f n).
Proof.
  unfold run_visit, visit. rewrite get_mask_sim, get_visited_sim.
  destruct (negb _ && _); [|done].
  by rewrite run_mark_sim, run_push_sim.
Qed.

Lemma run_visits_sim ns : ∀ f,
  foldl (run_visit W ρ φ) (state f) ns = state (foldl (visit W mask) f ns).
Proof.
  induction ns as [|n ns IH]; intros f; [done|].
  cbn [foldl]. by rewrite run_visit_sim, IH.
Qed.

Lemma run_flood_sim fuel : ∀ f areaComp,
  run_flood fuel W H ρ φ (state f) areaComp
  = (state (flood fuel W H mask f areaComp).1,
     (flood fuel W H mask f areaComp).2).
Proof.
  induction fuel as [|fuel IH]; intros f areaComp; [done|].
  cbn [run_flood flood]. change (state f).1 with (sp f).
  destruct (0 <? sp f); [|done].
  rewrite run_pop_sim. destruct (pop f) as [[cx cy] f1]. cbn [fst snd].
  by rewrite run_visits_sim, IH.
Qed.

Lemma run_label_at_sim y f largest x :
  run_label_at W H ρ φ y (state f, largest) x
  = (state (label_at W H mask y (f, largest) x).1,
     (label_at W H mask y (f, largest) x).2).
Proof.
  unfold run_label_at, label_at. rewrite get_mask_sim, get_visited_sim.
  destruct (negb _ || _); [done|].
  rewrite run_push_sim, run_mark_sim, run_flood_sim.
  by destruct (flood _ _ _ _ _ _) as [f' areaComp].
Qed.

Lemma run_label_row_sim xs : ∀ y f largest,
  foldl (run_label_at W H ρ φ y) (state f, largest) xs
  = (state (foldl (label_at W H mask y) (f, largest) xs).1,
     (foldl (label_at W H mask y) (f, largest) xs).2).
Proof.
  induction xs as [|x xs IH]; intros y f largest; [done|].
  cbn [foldl]. rewrite run_label_at_sim.
  destruct (label_at W H mask y (f, largest) x) as [f' largest'].
  apply IH.
Qed.

Lemma run_label_rows_sim ys : ∀ f largest,
  foldl (run_label_row W H ρ φ) (state f, largest) ys
  = (state (foldl (label_row W H mask) (f, largest) ys).1,
     (foldl (label_row W H mask) (f, largest) ys).2).
Proof.
  induction ys as [|y ys IH]; intros f largest; [done|].
  cbn [foldl]. unfold run_label_row at 2, label_row at 2 4.
  rewrite run_label_row_sim.
  destruct (foldl (label_at W H mask y) (f, largest) (seqZ 0 W))
    as [f' largest'].
  apply IH.
Qed.

Lemma run_largestComp_sim count :
  count = greenCount st →
  run_largestComp W H ρ count (σ0 ++ scan_objects st)
  = (largestComp W H mask count,
     σ0 ++ scan_objects st ++ fill_garbage W H st).
Proof.
  intros ->. unfold run_largestComp, largestComp, fill_garbage.
  destruct (0 <? greenCount st); [|done].
  rewrite !store_alloc. unfold scan_objects at 1 2 3 4. cbn [length app].
  change (mkFillRefs _ _ _) with (fill_refs_at (length σ0)).
  change (0, σ0 ++ _) with (fill_state σ0 st (fill_init (W * H))).
  rewrite run_label_rows_sim.
  by destruct (foldl _ _ _) as [f largest].
Qed.

Lemma run_edge_at_sim more y acc x :
  run_edge_at W ρ (σ0 ++ scan_objects st ++ more) y acc x
  = edge_at W (gray st) mask y acc x.
Proof.
  unfold run_edge_at, edge_at, pass_refs_at. cbn [r_gray r_greenMask].
  by store_ops.
Qed.

Lemma run_edge_row_sim more y xs : ∀ acc,
  foldl (run_edge_at W ρ (σ0 ++ scan_objects st ++ more) y) acc xs
  = foldl (edge_at W (gray st) mask y) acc xs.
Proof.
  induction xs as [|x xs IH]; intros acc; [done|].
  cbn [foldl]. by rewrite run_edge_at_sim, IH.
Qed.

Lemma run_edge_rows_sim more ys : ∀ acc,
  foldl (λ acc y,
           foldl (run_edge_at W ρ (σ0 ++ scan_objects st ++ more) y) acc
                 (seqZ 1 (W - 2))) acc ys
  = foldl (λ acc y,
             foldl (edge_at W (gray st) mask y) acc (seqZ 1 (W - 2))) acc ys.
Proof.
  induction ys as [|y ys IH]; intros acc; [done|].
  cbn [foldl]. by rewrite run_edge_row_sim, IH.
Qed.

Lemma run_edgeDensity_sim more :
  run_edgeDensity W H ρ (σ0 ++ scan_objects st ++ more)
  = edgeDensity_of W H (gray st) mask.
Proof.
  unfold run_edgeDensity, edgeDensity_of. by rewrite run_edge_rows_sim.
Qed.

End fill_on_store.

Lemma run_analyse_sim img σ0 :
  run_analyse img σ0
  = (analyse img,
     σ0 ++ scan_objects (scan_image img)
        ++ fill_garbage (width img) (height img) (scan_image img)).
Proof.
  unfold run_analyse. rewrite <-(app_nil_r σ0) at 1.
  do 4 (rewrite store_alloc; cbn [length app]).
  change (mkPassRefs _ _ _ _) with (pass_refs_at (length σ0)).
  change (mkTally _ _ _ _ _ _ _)
    with (tally_of (scan_init (width img * height img))).
  change (σ0 ++ [_; _; _; _])
    with (σ0 ++ scan_objects (scan_init (width img * height img)) ++ []).
  rewrite run_scan_loop_sim. fold (scan_image img). rewrite app_nil_r.
  cbn [tally_of t_greenCount t_rSum t_gSum t_bSum t_rSq t_gSq t_bSq].
  rewrite (run_largestComp_sim σ0 (scan_image img)) by reflexivity.
  rewrite run_edgeDensity_sim.
  unfold pass_refs_at, Store.entries, Store.elements.
  cbn [r_gray r_greenMask r_hueValues r_paletteCounts].
  rewrite !store_lookup. reflexivity.
Qed.

Lemma run_validateLeafImage_sim read σ0 :
  run_validateLeafImage read σ0 = (validateLeafImage read, σ0 ++ garbage read).
Proof.
  unfold run_validateLeafImage, run_validate_body, validateLeafImage,
    validate_body, garbage.
  destruct read as [img|err]; [|by rewrite app_nil_r].
  destruct (width img * height img <? MIN_AREA); [by rewrite app_nil_r|].
  destruct (MAX_ASPECT <? aspect img)%float; [by rewrite app_nil_r|].
  by rewrite run_analyse_sim.
Qed.

Lemma run_calls_sim reads : ∀ σ0,
  (run_calls reads σ0).1 = validateLeafImage <$> reads.
Proof.
  induction reads as [|read reads IH]; intros σ0; [done|].
  cbn [run_calls]. rewrite run_validateLeafImage_sim.
  specialize (IH (σ0 ++ garbage read)).
  destruct (run_calls reads (σ0 ++ garbage read)) as [vs σ].
  cbn [fst] in *. by rewrite IH.
Qed.

(* ------------------------------------------------------------------ *)
(** ** Properties of the validator *)

(** C1. Once every Phase 1 and Phase 2 guard has passed, the image is
    accepted exactly when at least three of the five soft signals hold:
    signal 1 always holds, signal 2 is "not very uniform or palette not
    too small", signal 3 is "edge density 0 or between 0.015 and 0.60",
    signal 4 is "hue spread undefined or not too low", signal 5 is "top
    share at most 0.70".  Equivalently, at least two of signals 2-5. *)
Theorem soft_score_majority img :
  passes_guards img = true →
  let F := analyse img in
  let v := validateLeafImage (Normal img) in
  score F = held (signals F)
  ∧ hd false (signals F) = true
  ∧ (v = accept ↔ 3 ≤ held (signals F))
  ∧ (valid v = true ↔ 3 ≤ held (signals F))
  ∧ (valid v = true ↔ 2 ≤ held (tail (signals F))).
Proof.
  intros Hp F v. unfold v. rewrite (validate_reaches_phase3 img Hp).
  fold F. rewrite (score_signals F).
  assert (held (signals F) = 1 + held (tail (signals F))) as Htl by done.
  split_and!; [done|done|..];
    destruct (Z.leb_spec 3 (held (signals F)));
    unfold accept, reject; cbn [valid];
    (split; intros ?; first [done|lia|discriminate]).
Qed.

Lemma soft_score_majority_witness :
  passes_guards green_on_white = true
  ∧ validateLeafImage (Normal green_on_white) = accept
  ∧ 3 ≤ held (signals (analyse green_on_white)).
Proof.
  assert (passes_guards green_on_white = true) as Hp
    by (vm_compute; reflexivity).
  pose proof (soft_score_majority green_on_white Hp) as (Hs & _ & Ha & _).
  assert (3 ≤ score (analyse green_on_white)) as H3
    by (vm_compute; discriminate).
  rewrite Hs in H3. split_and!; [exact Hp|by apply Ha|exact H3].
Defined.

(** C2. If any of the guards fires (area below 8000; aspect ratio above
    7; green ratio below 0.18; largest component ratio below 0.12; green
    ratio above 0.995), the verdict is the rejection carrying the reason
    of the first guard that fires, in that order; the soft score plays no
    part in it. *)
Theorem guard_rejection_first img g :
  guard_fires img (analyse img) g = true →
  ∃ g', first_failing_guard img = Some g'
        ∧ guard_fires img (analyse img) g' = true
        ∧ validateLeafImage (Normal img) = reject (guard_reason g')
        ∧ valid (validateLeafImage (Normal img)) = false.
Proof.
  intros Hg.
  destruct (first_failing_guard img) as [g'|] eqn:Hfirst.
  2:{ assert (passes_guards img = true) as Hp
        by (unfold passes_guards; by rewrite Hfirst).
      rewrite (proj1 (passes_guards_spec img) Hp g) in Hg. done. }
  exists g'. unfold first_failing_guard, guard_order in Hfirst.
  unfold validateLeafImage, validate_body, decide_leaf, MIN_AREA, MAX_ASPECT.
  revert Hfirst. generalize (analyse img). intros F. cbn [List.find].
  change (width img * height img <? 8000) with (guard_fires img F TooSmall).
  change (7 <? aspect img)%float with (guard_fires img F TooExtreme).
  change (greenRatio F <? 0.18)%float with (guard_fires img F NotLeaf).
  change (largestCompRatio F <? 0.12)%float with (guard_fires img F NoMainLeaf).
  change (0.995 <? greenRatio F)%float with (guard_fires img F SingleColor).
  destruct (guard_fires img F TooSmall) eqn:H1.
  { intros [= <-]. by rewrite H1. }
  destruct (guard_fires img F TooExtreme) eqn:H2.
  { intros [= <-]. by rewrite H2. }
  destruct (guard_fires img F NotLeaf) eqn:H3.
  { intros [= <-]. by rewrite H3. }
  destruct (guard_fires img F NoMainLeaf) eqn:H4.
  { intros [= <-]. by rewrite H4. }
  destruct (guard_fires img F SingleColor) eqn:H5.
  { intros [= <-]. by rewrite H5. }
  done.
Qed.

Lemma guard_rejection_first_witness :
  guard_fires tiny (analyse tiny) SingleColor = true
  ∧ ∃ g', first_failing_guard tiny = Some g'
          ∧ guard_fires tiny (analyse tiny) g' = true
          ∧ validateLeafImage (Normal tiny) = reject (guard_reason g')
          ∧ valid (validateLeafImage (Normal tiny)) = false.
Proof.
  assert (guard_fires tiny (analyse tiny) SingleColor = true) as Hg
    by (vm_compute; reflexivity).
  split; [exact Hg|exact (guard_rejection_first tiny SingleColor Hg)].
Defined.

(** C3. For every green mask and grid dimensions the labelling pass
    returns the pixel count of the largest 4-connected region of masked
    pixels, a number fixed by the mask alone, whatever the order of the
    traversal; the ratio is that count divided by [width * height]; two
    separate blobs of 100 and 400 masked pixels in a 1000-pixel grid
    give exactly 0.4, not 0.5. *)
Theorem largest_component_ratio :
  (∀ W H mask count,
      (0 < count ↔ ∃ p, masked W H mask p) →
      largest_region_size W H mask (largestComp W H mask count)
      ∧ ∀ n, largest_region_size W H mask n → n = largestComp W H mask count)
  ∧ (∀ img,
      let st := scan_image img in
      let n := largestComp (width img) (height img) (greenMask st)
                 (greenCount st) in
      largest_region_size (width img) (height img) (greenMask st) n
      ∧ largestCompRatio (analyse img)
        = (Num.of_Z n / Num.of_Z (width img * height img))%float)
  ∧ (greenCount (scan_image two_blobs) = 500
     ∧ largestComp 50 20 (greenMask (scan_image two_blobs)) 500 = 400
     ∧ largestCompRatio (analyse two_blobs) = 0.4%float
     ∧ (largestCompRatio (analyse two_blobs) =? 0.5)%float = false).
Proof.
  split_and!.
  - intros W H mask count Hcount.
    assert (largest_region_size W H mask (largestComp W H mask count)) as Hl.
    { apply largestComp_largest_region.
      intros Hle p Hp. assert (0 < count) by (apply Hcount; eauto). lia. }
    split; [done|]. intros n Hn.
    by apply (largest_region_size_unique W H mask).
  - intros img st n. split; [apply largestComp_scan|reflexivity].
  - vm_compute. reflexivity.
  - vm_compute. reflexivity.
  - vm_compute. reflexivity.
  - vm_compute. reflexivity.
Qed.

(** C4. When Phase 3 rejects (all guards passed, score below 3) the
    reason is the first applicable one in the order: fragmented leaf
    region, overly uniform colour, palette too limited, too many hard
    edges, texture too flat; and the generic reason when none applies. *)
Theorem rejection_reason_priority img :
  passes_guards img = true →
  score (analyse img) < 3 →
  validateLeafImage (Normal img) = reject (most_specific_reason (analyse img)).
Proof.
  intros Hp Hs. rewrite (validate_reaches_phase3 img Hp).
  destruct (Z.leb_spec 3 (score (analyse img))); [lia|done].
Qed.

Lemma rejection_reason_priority_witness :
  passes_guards two_dark_tones = true
  ∧ score (analyse two_dark_tones) < 3
  ∧ validateLeafImage (Normal two_dark_tones)
    = reject (most_specific_reason (analyse two_dark_tones)).
Proof.
  assert (passes_guards two_dark_tones = true) as Hp
    by (vm_compute; reflexivity).
  assert (score (analyse two_dark_tones) < 3) as Hs
    by (vm_compute; reflexivity).
  split_and!; [exact Hp|exact Hs|].
  exact (rejection_reason_priority two_dark_tones Hp Hs).
Defined.

(** C5. The validator always ends with a verdict: a value thrown while
    decoding is caught and becomes a rejection whose reason is the
    error's message (a fixed message when the value is not an [Error]);
    the analysis itself cannot throw; and a verdict carries a reason
    exactly when it is a rejection. *)
Theorem never_throws read :
  let v := validateLeafImage read in
  (∀ img, read = Normal img → validate_body read = Normal v)
  ∧ (∀ m, read = Throw (ErrorObj m) → v = mkResult false (Some m))
  ∧ (read = Throw NonError → v = mkResult false (Some reason_fallback))
  ∧ (valid v = false ↔ is_Some (reason v))
  ∧ (valid v = true ↔ reason v = None).
Proof.
  intros v. split_and!.
  - intros img ->. unfold v, validateLeafImage, validate_body.
    by repeat case_match.
  - by intros m ->.
  - by intros ->.
  - unfold v, validateLeafImage, validate_body, decide_leaf, accept, reject.
    repeat case_match; simplify_eq; simpl;
      (split; [by eauto|done]) || (split; [done|by intros [? [=]]]).
  - unfold v, validateLeafImage, validate_body, decide_leaf, accept, reject.
    repeat case_match; simplify_eq; simpl; by split.
Qed.

(** C6. An image of fewer than 8000 pixels is rejected as too small,
    whatever its pixels are. *)
Theorem too_small_rejected img :
  width img * height img < 8000 →
  validateLeafImage (Normal img) = reject reason_too_small.
Proof.
  intros Hsmall. unfold validateLeafImage, validate_body, MIN_AREA.
  by rewrite (proj2 (Z.ltb_lt _ _) Hsmall).
Qed.

Lemma too_small_rejected_witness :
  width tiny * height tiny < 8000
  ∧ validateLeafImage (Normal tiny) = reject reason_too_small.
Proof.
  assert (width tiny * height tiny < 8000) as Hsmall by (simpl; lia).
  split; [exact Hsmall|exact (too_small_rejected tiny Hsmall)].
Defined.

(** Leaf green [(60, 160, 60)] has hue 120 degrees, saturation 0.625 and
    value about 0.627, and is therefore masked. *)
Lemma leaf_green_hsv :
  let c := toHSV 60 160 60 in
  (hsv_h c * 360)%float = 120%float
  ∧ hsv_s c = 0.625%float
  ∧ ((0.627 <? hsv_v c) && (hsv_v c <? 0.628))%float = true
  ∧ isGreenish c = true.
Proof. vm_compute. by split_and!. Qed.

(** C7 (as the program has it). In a decoded grid of at least 8000
    pixels whose aspect ratio does not exceed 7 and whose every pixel is
    [(60, 160, 60)], every pixel is masked, the green ratio is 1, the
    guards on green ratio below 0.18 and on the largest component do not
    fire, and the image is rejected by the single-colour guard. *)
Theorem solid_green_rejected img alphas :
  decoder_dims img →
  data img = solid 60 160 60 alphas →
  Z.of_nat (length alphas) = width img * height img →
  8000 ≤ width img * height img →
  (7 <? aspect img)%float = false →
  let F := analyse img in
  (∀ i, 0 ≤ i < width img * height img →
        flag (greenMask (scan_image img)) i = true)
  ∧ isGreenish (toHSV 60 160 60) = true
  ∧ (greenRatio F =? 1)%float = true
  ∧ (greenRatio F <? 0.18)%float = false
  ∧ (largestCompRatio F <? 0.12)%float = false
  ∧ (0.995 <? greenRatio F)%float = true
  ∧ validateLeafImage (Normal img) = reject reason_single_color.
Proof.
  intros Hdims Hdata Hlen Harea Haspect F.
  pose proof leaf_green_hsv as (_ & _ & _ & Hgreen).
  set (W := width img) in *. set (H := height img) in *.
  assert (0 < W ∧ 0 < H) as [HW HH] by (unfold decoder_dims in Hdims; lia).
  destruct (scan_solid 60 160 60 Hgreen alphas 0 (scan_init (W * H)))
    as (Hcount & Hmlen & Hflags); [done|simpl; lia|].
  change (scan_loop (solid 60 160 60 alphas) 0 (scan_init (W * H)))
    with (scan_loop (solid 60 160 60 alphas) 0
            (scan_init (width img * height img))) in *.
  rewrite <-Hdata in Hcount, Hmlen, Hflags.
  change (scan_loop (data img) 0 (scan_init (width img * height img)))
    with (scan_image img) in *.
  simpl in Hcount, Hmlen, Hflags. rewrite Hlen in Hcount, Hflags.
  assert (∀ i, 0 ≤ i < W * H → flag (greenMask (scan_image img)) i = true)
    as Hmask by (intros i ?; apply Hflags; lia).
  assert (largestComp W H (greenMask (scan_image img))
            (greenCount (scan_image img)) = W * H) as Hlargest.
  { apply (full_largest W H (greenMask (scan_image img))); [|done..|].
    - intros p Hp. split; [done|]. by apply Hmask, idx_range.
    - apply largestComp_largest_region. lia. }
  assert (greenRatio F = (Num.of_Z (W * H) / Num.of_Z (W * H))%float) as HgR.
  { unfold F. rewrite greenRatio_analyse. by rewrite Hcount. }
  assert (largestCompRatio F = (Num.of_Z (W * H) / Num.of_Z (W * H))%float)
    as HlR.
  { unfold F. rewrite largestCompRatio_analyse. fold W H. by rewrite Hlargest. }
  pose proof (all_between_spec _ _ _ (W * H) full_ratio_checked
                (decoded_count img Hdims Harea)) as Hcheck.
  unfold full_ratio_check in Hcheck. cbn zeta in Hcheck.
  rewrite <-HgR in Hcheck.
  apply andb_prop in Hcheck as [Hcheck H4].
  apply andb_prop in Hcheck as [Hcheck H3%negb_true_iff].
  apply andb_prop in Hcheck as [H1 H2%negb_true_iff].
  assert ((largestCompRatio F <? 0.12)%float = false) as H3'
    by (by rewrite HlR, <-HgR).
  split_and!; [done..|].
  unfold validateLeafImage, validate_body, MIN_AREA, MAX_ASPECT.
  fold W H. rewrite (proj2 (Z.ltb_ge _ _) Harea), Haspect.
  unfold decide_leaf. fold F. by rewrite H2, H3', H4.
Qed.

Lemma solid_green_rejected_witness :
  decoder_dims (solid_green 100 80)
  ∧ validateLeafImage (Normal (solid_green 100 80)) = reject reason_single_color.
Proof.
  assert (decoder_dims (solid_green 100 80)) as Hdims
    by (unfold decoder_dims, maxDim; simpl; lia).
  split; [exact Hdims|].
  refine (proj2 (proj2 (proj2 (proj2 (proj2 (proj2
    (solid_green_rejected (solid_green 100 80)
       (replicate (Z.to_nat (100 * 80)) 255) Hdims eq_refl _ _ _))))))).
  - rewrite length_replicate. simpl. lia.
  - simpl. lia.
  - vm_compute. reflexivity.
Defined.

(** C7 as stated fails: a solid leaf-green grid of 256 x 32 = 8192
    pixels is rejected for its aspect ratio, not by the single-colour
    guard. *)
Lemma solid_green_wide_counterexample :
  data (solid_green 256 32) = solid 60 160 60 (replicate (Z.to_nat (256 * 32)) 255)
  ∧ decoder_dims (solid_green 256 32)
  ∧ 8000 ≤ width (solid_green 256 32) * height (solid_green 256 32)
  ∧ validateLeafImage (Normal (solid_green 256 32)) = reject reason_aspect
  ∧ validateLeafImage (Normal (solid_green 256 32))
    ≠ reject reason_single_color.
Proof.
  assert (validateLeafImage (Normal (solid_green 256 32)) = reject reason_aspect)
    as Hv by (vm_compute; reflexivity).
  split_and!; [reflexivity|unfold decoder_dims, maxDim; simpl; lia|simpl; lia
              |exact Hv|].
  rewrite Hv. discriminate.
Qed.

(** C8. The verdict is a function of the decoded input alone, and no
    state is carried from one call to the next.  The body is run as a
    program on a store that outlives the call: whatever objects earlier
    calls have left there, a call returns the verdict the input
    determines; two calls in a row on the same input return the same
    verdict; in any series of calls every verdict is that of its own
    input; and a call changes no object that existed before it. *)
Theorem validate_no_hidden_state :
  (∀ read σ σ',
      (run_validateLeafImage read σ).1 = (run_validateLeafImage read σ').1)
  ∧ (∀ read σ,
      let first := run_validateLeafImage read σ in
      let second := run_validateLeafImage read first.2 in
      second.1 = first.1)
  ∧ (∀ reads σ, (run_calls reads σ).1 = validateLeafImage <$> reads)
  ∧ (∀ read σ, σ `prefix_of` (run_validateLeafImage read σ).2)
  ∧ (run_calls [Normal green_on_white; Normal two_dark_tones;
                Normal green_on_white] []).1
    = [accept; reject reason_uniform; accept].
Proof.
  split_and!.
  - intros read σ σ'. by rewrite !run_validateLeafImage_sim.
  - intros read σ first second. unfold second, first.
    by rewrite !run_validateLeafImage_sim.
  - intros reads σ. apply run_calls_sim.
  - intros read σ. rewrite run_validateLeafImage_sim. by eexists.
  - vm_compute. reflexivity.
Qed.

(** C9. The Phase 3 "fragmented leaf region" rejection is dead code: no
    decoded image is rejected with that reason, because a largest
    component ratio below 0.12 has already been rejected in Phase 2. *)
Theorem fragmented_reason_unreachable img :
  validateLeafImage (Normal img) ≠ reject reason_fragmented
  ∧ reason (validateLeafImage (Normal img)) ≠ Some reason_fragmented
  ∧ (passes_guards img = true →
     (largestCompRatio (analyse img) <? 0.12)%float = false).
Proof.
  assert (reason (validateLeafImage (Normal img)) ≠ Some reason_fragmented)
    as Hr.
  { unfold validateLeafImage, validate_body, decide_leaf, accept, reject.
    generalize (analyse img). intros F.
    destruct (largestCompRatio F <? 0.12)%float;
      repeat case_match; simplify_eq; simpl;
      unfold reason_fragmented, reason_too_small, reason_aspect,
        reason_not_leaf, reason_no_main_leaf, reason_single_color,
        reason_uniform, reason_palette, reason_hard_edges, reason_flat,
        reason_generic;
      discriminate. }
  split_and!; [|done|].
  - intros Hv. apply Hr. rewrite Hv. reflexivity.
  - intros Hp. exact (proj1 (passes_guards_spec img) Hp NoMainLeaf).
Qed.

(** C10. When Phase 3 is reached on a decoded grid, at least one pixel
    is masked, so the list of hue samples is not empty, [hueStdTooLow]
    is defined and signal 4 is its negation. *)
Theorem hue_samples_present img :
  decoder_dims img →
  passes_guards img = true →
  0 < greenCount (scan_image img)
  ∧ hueValues (scan_image img) ≠ []
  ∧ ∃ b, hueStdTooLow (analyse img) = Some b
         ∧ signal4 (analyse img) = negb b.
Proof.
  intros Hdims Hp.
  pose proof (proj1 (passes_guards_spec img) Hp) as Hg.
  pose proof (Hg TooSmall) as H1. pose proof (Hg NotLeaf) as H3.
  cbn [guard_fires] in H1, H3. apply Z.ltb_ge in H1.
  destruct (scan_image_ok img) as [Hc0 _ Hh].
  assert (0 < greenCount (scan_image img)) as Hpos.
  { destruct (decide (greenCount (scan_image img) = 0)) as [E|]; [|lia].
    pose proof (all_between_spec _ _ _ _ zero_ratio_checked
                  (decoded_count img Hdims H1)) as Hz.
    unfold zero_ratio_check in Hz.
    rewrite greenRatio_analyse, E in H3. congruence. }
  split; [done|].
  assert (hueValues (scan_image img) ≠ []) as Hne.
  { intros E. rewrite E in Hh. simpl in Hh. lia. }
  split; [done|].
  unfold signal4. rewrite hueStdTooLow_analyse. unfold hueStdTooLow_of.
  destruct (hueValues (scan_image img)) as [|h hs]; [done|].
  simpl. eauto.
Qed.

Lemma hue_samples_present_witness :
  decoder_dims two_dark_tones
  ∧ passes_guards two_dark_tones = true
  ∧ hueValues (scan_image two_dark_tones) ≠ [].
Proof.
  assert (decoder_dims two_dark_tones) as Hdims
    by (unfold decoder_dims, maxDim; simpl; lia).
  assert (passes_guards two_dark_tones = true) as Hp
    by (vm_compute; reflexivity).
  split_and!; [exact Hdims|exact Hp|].
  exact (proj1 (proj2 (hue_samples_present two_dark_tones Hdims Hp))).
Defined.

(* ------------------------------------------------------------------ *)
(** ** Plant labels *)

Lemma startsWith_spec needle hay :
  startsWith needle hay = true ↔ ∃ post, hay = needle ++ post.
Proof.
  revert hay. induction needle as [|a needle IH]; intros hay; simpl.
  { split; [eauto|done]. }
  destruct hay as [|b hay].
  { split; [done|]. by intros [? ?]. }
  rewrite andb_true_iff, bool_decide_eq_true, IH. split.
  - intros [-> [post ->]]. eauto.
  - intros [post [= -> ->]]. eauto.
Qed.

Lemma includes_spec needle hay :
  includes needle hay = true ↔ occurs_in needle hay.
Proof.
  unfold occurs_in. induction hay as [|b hay IH]; simpl.
  - rewrite startsWith_spec. split.
    + intros [post E]. by exists [], post.
    + intros (pre & post & E). symmetry in E.
      apply app_eq_nil in E as [-> [-> ->]%app_eq_nil]. by exists [].
  - rewrite orb_true_iff, startsWith_spec, IH. split.
    + intros [[post E]|(pre & post & E)].
      * by exists [], post.
      * exists (b :: pre), post. by rewrite E.
    + intros (pre & post & E). destruct pre as [|c pre]; simpl in E.
      * left. eauto.
      * right. inversion E; subst. eauto.
Qed.

Lemma occurs_in_refl s : occurs_in s s.
Proof. exists [], []. by rewrite app_nil_r. Qed.

Lemma occurs_in_trans a b c : occurs_in a b → occurs_in b c → occurs_in a c.
Proof.
  intros (p1 & q1 & ->) (p2 & q2 & ->).
  exists (p2 ++ p1), (q1 ++ q2). by rewrite <-!(assoc_L (++)).
Qed.

Lemma occurs_in_lower a b :
  occurs_in a b → occurs_in (toLowerCase a) (toLowerCase b).
Proof.
  intros (p & q & ->). exists (toLowerCase p), (toLowerCase q).
  unfold toLowerCase. by rewrite !fmap_app.
Qed.

(** Every piece of a split occurs in the string and holds no
    separator. *)
Lemma split_aux_pieces s : ∀ in_run cur t,
  (in_run = true → cur = []) →
  Forall (λ c, is_sep c = false) cur →
  t ∈ split_aux in_run cur s →
  occurs_in t (reverse cur ++ s) ∧ Forall (λ c, is_sep c = false) t.
Proof.
  induction s as [|c rest IH]; intros in_run cur t Hrun Hcur; simpl.
  { intros ->%list_elem_of_singleton. split.
    - exists [], []. by rewrite !app_nil_r.
    - by apply Forall_reverse. }
  destruct (is_sep c) eqn:Hc.
  - assert (∀ u, u ∈ split_aux true [] rest →
              occurs_in u (reverse cur ++ c :: rest)
              ∧ Forall (λ c, is_sep c = false) u) as Hrest.
    { intros u Hu. destruct (IH true [] u) as [(p & q & E) ?]; [done..|].
      split; [|done]. exists (reverse cur ++ c :: p), q.
      simpl in E. rewrite E. by rewrite <-(assoc_L (++)). }
    destruct in_run.
    + pose proof (Hrun eq_refl) as ->. apply Hrest.
    + intros [->|Ht]%elem_of_cons; [|by apply Hrest].
      split; [|by apply Forall_reverse].
      by exists [], (c :: rest).
  - intros Ht. destruct (IH false (c :: cur) t) as [Ho ?]; [done| |done|].
    { by constructor. }
    split; [|done]. rewrite reverse_cons, <-(assoc_L (++)) in Ho. done.
Qed.

Lemma split_seps_pieces s t :
  t ∈ split_seps s → occurs_in t s ∧ Forall (λ c, is_sep c = false) t.
Proof. intros Ht. by apply (split_aux_pieces s false [] t). Qed.

Lemma existsb_bind {A B} (f : B → bool) (g : A → list B) (l : list A) :
  existsb f (l ≫= g) = existsb (λ a, existsb f (g a)) l.
Proof.
  induction l as [|a l IH]; [done|].
  change ((a :: l) ≫= g) with (g a ++ (l ≫= g)).
  by rewrite existsb_app, IH.
Qed.

Lemma plant_words_names p :
  p ∈ ALLOWED_PLANTS → toLowerCase p ∈ plant_words.
Proof.
  intros Hp. apply (list_elem_of_fmap_2 toLowerCase) in Hp.
  revert Hp. generalize (toLowerCase p). intros w Hw.
  vm_compute in Hw. vm_compute.
  repeat (apply elem_of_cons in Hw as [->|Hw];
          [repeat first [by left | right]|]).
  by apply elem_of_nil in Hw.
Qed.

Lemma allowed_names_clean p :
  p ∈ ALLOWED_PLANTS → p ≠ [] ∧ Forall (λ c, is_sep c = false) p.
Proof.
  assert (forallb (λ p, truthy p && forallb (λ c, negb (is_sep c)) p)
            ALLOWED_PLANTS = true) as Hall by (vm_compute; reflexivity).
  intros Hp%list_elem_of_In. rewrite forallb_forall in Hall.
  apply Hall, andb_prop in Hp as [Ht Hs]. split.
  - by destruct p.
  - apply Forall_forall. intros c Hc%list_elem_of_In.
    rewrite forallb_forall in Hs. by apply negb_true_iff, Hs.
Qed.

Lemma fallback_spec lower p :
  List.find (λ p, includes (toLowerCase p) lower) ALLOWED_PLANTS = Some p →
  p ∈ ALLOWED_PLANTS ∧ occurs_in (toLowerCase p) lower.
Proof.
  intros [Hin Hinc]%find_some. split; [by apply list_elem_of_In|].
  by apply includes_spec.
Qed.

(** What [parsePlantFromLabel] returns is either the second token of a
    [Daun ...] label or an allowed name found in the label. *)
Lemma parse_cases label p :
  parsePlantFromLabel label = Some p →
  (p ∈ filter (λ p, truthy p = true) (split_seps label))
  ∨ (p ∈ ALLOWED_PLANTS ∧ occurs_in (toLowerCase p) (toLowerCase label)).
Proof.
  unfold parsePlantFromLabel. destruct label as [|c label]; [done|].
  cbn [truthy negb].
  destruct (filter _ (split_seps (c :: label))) as [|p0 [|p1 parts]];
    [by intros ?%fallback_spec; right..|].
  case_bool_decide.
  - intros [= <-]. left. set_solver.
  - intros ?%fallback_spec. by right.
Qed.

(** X1. On an ASCII label, a plant returned by [parsePlantFromLabel] is
    never empty, holds no underscore and no white space, and occurs in
    the label up to letter case. *)
Theorem parsed_plant_is_token label p :
  ascii_only label = true →
  parsePlantFromLabel label = Some p →
  p ≠ []
  ∧ Forall (λ c, is_sep c = false) p
  ∧ occurs_in (toLowerCase p) (toLowerCase label).
Proof.
  intros _ [Hp|[Hp Ho]]%parse_cases.
  - apply list_elem_of_filter in Hp as [Ht [Ho Hs]%split_seps_pieces].
    split_and!; [by destruct p|done|by apply occurs_in_lower].
  - destruct (allowed_names_clean p Hp). done.
Qed.

Lemma parsed_plant_is_token_witness :
  ascii_only (str "Daun_Apel_Busuk") = true
  ∧ parsePlantFromLabel (str "Daun_Apel_Busuk") = Some (str "Apel")
  ∧ occurs_in (toLowerCase (str "Apel")) (toLowerCase (str "Daun_Apel_Busuk")).
Proof.
  assert (ascii_only (str "Daun_Apel_Busuk") = true) as Ha by reflexivity.
  assert (parsePlantFromLabel (str "Daun_Apel_Busuk") = Some (str "Apel"))
    as Hp by reflexivity.
  split_and!; [exact Ha|exact Hp|].
  exact (proj2 (proj2 (parsed_plant_is_token _ _ Ha Hp))).
Defined.

Lemma existsb_words (f : list ascii → bool)
    (l : list (list ascii * list (list ascii))) :
  existsb (λ e, existsb f e.2 || f (toLowerCase e.1)) l
  = existsb f (l ≫= λ e, e.2 ++ [toLowerCase e.1]).
Proof.
  induction l as [|e l IH]; [done|].
  change ((e :: l) ≫= λ e, e.2 ++ [toLowerCase e.1])
    with ((e.2 ++ [toLowerCase e.1]) ++ (l ≫= λ e, e.2 ++ [toLowerCase e.1])).
  rewrite !existsb_app, <-IH. simpl. by rewrite orb_false_r.
Qed.

Lemma isAllowed_unfold label :
  isAllowedPlantLabel label
  = match parsePlantFromLabel label with
    | Some p =>
        truthy p
        && bool_decide (toLowerCase p ∈ toLowerCase <$> ALLOWED_PLANTS)
    | None => false
    end
    || existsb (λ w, includes w (toLowerCase label)) plant_words.
Proof.
  unfold isAllowedPlantLabel, plant_words. rewrite <-existsb_words.
  by destruct (match parsePlantFromLabel label with
               | Some _ => _ | None => _ end).
Qed.

Lemma contains_word_spec label :
  existsb (λ w, includes w (toLowerCase label)) plant_words = true
  ↔ ∃ w, w ∈ plant_words ∧ occurs_in w (toLowerCase label).
Proof.
  rewrite existsb_exists. split.
  - intros (w & Hw%list_elem_of_In & Hi%includes_spec). eauto.
  - intros (w & Hw%list_elem_of_In & Hi%includes_spec). eauto.
Qed.

(** The parsing of the [Daun_...] pattern never changes the answer. *)
Lemma isAllowed_contains label :
  isAllowedPlantLabel label
  = existsb (λ w, includes w (toLowerCase label)) plant_words.
Proof.
  rewrite isAllowed_unfold.
  destruct (parsePlantFromLabel label) as [p|] eqn:Hparse; [|done].
  destruct (truthy p && _) eqn:Hfirst; [|done].
  apply andb_prop in Hfirst as [_ Hmem%bool_decide_eq_true].
  apply list_elem_of_fmap in Hmem as (q & Hq & Hin).
  symmetry. apply contains_word_spec. exists (toLowerCase q).
  split; [by apply plant_words_names|]. rewrite <-Hq.
  apply parse_cases in Hparse as [Hp|[_ Ho]]; [|done].
  apply list_elem_of_filter in Hp as [_ [Ho _]%split_seps_pieces].
  by apply occurs_in_lower.
Qed.

(** X2. On an ASCII label, [isAllowedPlantLabel] answers [true] exactly
    when the lower-cased label contains the lower-cased name of an
    allowed plant or one of the synonyms: the parsing of the [Daun_...]
    pattern never changes the answer. *)
Theorem allowed_iff_contains_word label :
  ascii_only label = true →
  isAllowedPlantLabel label
  = existsb (λ w, includes w (toLowerCase label)) plant_words
  ∧ (isAllowedPlantLabel label = true
     ↔ ∃ w, w ∈ plant_words ∧ occurs_in w (toLowerCase label)).
Proof.
  intros _. split; [apply isAllowed_contains|].
  rewrite isAllowed_contains. apply contains_word_spec.
Qed.

Lemma allowed_iff_contains_word_witness :
  ascii_only (str "Tomato leaf") = true
  ∧ isAllowedPlantLabel (str "Tomato leaf") = true
  ∧ ∃ w, w ∈ plant_words ∧ occurs_in w (toLowerCase (str "Tomato leaf")).
Proof.
  assert (ascii_only (str "Tomato leaf") = true) as Ha by reflexivity.
  assert (isAllowedPlantLabel (str "Tomato leaf") = true) as Hb
    by reflexivity.
  split_and!; [exact Ha|exact Hb|].
  exact (proj1 (proj2 (allowed_iff_contains_word _ Ha)) Hb).
Defined.

(** X3. Letter case does not matter: two ASCII labels with the same
    lower-casing get the same answer. *)
Theorem allowed_case_insensitive label1 label2 :
  ascii_only label1 = true → ascii_only label2 = true →
  toLowerCase label1 = toLowerCase label2 →
  isAllowedPlantLabel label1 = isAllowedPlantLabel label2.
Proof.
  intros _ _ E. by rewrite !isAllowed_contains, E.
Qed.

Lemma allowed_case_insensitive_witness :
  ascii_only (str "DAUN_TOMAT") = true ∧ ascii_only (str "daun_tomat") = true
  ∧ isAllowedPlantLabel (str "DAUN_TOMAT")
    = isAllowedPlantLabel (str "daun_tomat").
Proof.
  assert (ascii_only (str "DAUN_TOMAT") = true) as H1 by reflexivity.
  assert (ascii_only (str "daun_tomat") = true) as H2 by reflexivity.
  split_and!; [exact H1|exact H2|].
  exact (allowed_case_insensitive _ _ H1 H2 eq_refl).
Defined.

(** X4. Text around an allowed label never turns it into a refused one:
    if an ASCII label is allowed, so is every ASCII label that contains
    it. *)
Theorem allowed_when_extended pre label post :
  ascii_only (pre ++ label ++ post) = true →
  isAllowedPlantLabel label = true →
  isAllowedPlantLabel (pre ++ label ++ post) = true.
Proof.
  intros _. rewrite !isAllowed_contains, !contains_word_spec.
  intros (w & Hw & Ho). exists w. split; [done|].
  eapply occurs_in_trans; [done|]. apply occurs_in_lower. by exists pre, post.
Qed.

Lemma allowed_when_extended_witness :
  ascii_only (str "Daun_" ++ str "Apel" ++ str "_Busuk") = true
  ∧ isAllowedPlantLabel (str "Apel") = true
  ∧ isAllowedPlantLabel (str "Daun_" ++ str "Apel" ++ str "_Busuk") = true.
Proof.
  assert (ascii_only (str "Daun_" ++ str "Apel" ++ str "_Busuk") = true)
    as Ha by reflexivity.
  assert (isAllowedPlantLabel (str "Apel") = true) as Hb by reflexivity.
  split_and!; [exact Ha|exact Hb|].
  exact (allowed_when_extended _ _ _ Ha Hb).
Defined.

(** Separators are not letters. *)
Lemma lower_char_sep c : is_sep c = true → lower_char c = c.
Proof.
  destruct c as [[] [] [] [] [] [] [] []]; vm_compute; congruence.
Qed.

Lemma lower_sep_free s t :
  toLowerCase s = t → Forall (λ c, is_sep c = false) t →
  Forall (λ c, is_sep c = false) s.
Proof.
  intros <-. unfold toLowerCase. rewrite Forall_fmap, !Forall_forall.
  intros Hall c Hc. specialize (Hall c Hc). simpl in Hall.
  destruct (is_sep c) eqn:E; [|done].
  by rewrite (lower_char_sep c E), E in Hall.
Qed.

(** Reading a run of characters that are not separators. *)
Lemma split_aux_token t : ∀ in_run cur s,
  Forall (λ c, is_sep c = false) t → t ≠ [] →
  split_aux in_run cur (t ++ s) = split_aux false (reverse t ++ cur) s.
Proof.
  induction t as [|c t IH]; intros in_run cur s Ht Hne; [done|].
  apply Forall_cons in Ht as [Hc Ht]. simpl. rewrite Hc.
  destruct t as [|c' t'].
  - done.
  - rewrite IH by done. f_equal.
    by rewrite !reverse_cons, <-!(assoc_L (++)).
Qed.

(** Skipping a run of separators. *)
Lemma split_aux_run seps : ∀ s,
  Forall (λ c, is_sep c = true) seps →
  split_aux true [] (seps ++ s) = split_aux true [] s.
Proof.
  induction seps as [|c seps IH]; intros s Hs; [done|].
  apply Forall_cons in Hs as [Hc Hs]. simpl. rewrite Hc. by apply IH.
Qed.

(** X5. The label format round-trips: for any spelling [d] of "daun" in
    any letter case, a non-empty run of separators, a non-empty token
    [p] without separators and a rest that is empty or starts with a
    separator, [parsePlantFromLabel] returns [p] itself. *)
Theorem parse_daun_pattern d seps p rest :
  ascii_only (d ++ seps ++ p ++ rest) = true →
  toLowerCase d = str "daun" →
  seps ≠ [] → Forall (λ c, is_sep c = true) seps →
  p ≠ [] → Forall (λ c, is_sep c = false) p →
  (rest = [] ∨ ∃ c rest', rest = c :: rest' ∧ is_sep c = true) →
  parsePlantFromLabel (d ++ seps ++ p ++ rest) = Some p.
Proof.
  intros _ Hd Hseps Hallsep Hp Hpfree Hrest.
  assert (d ≠ []) as Hdne by (intros ->; done).
  assert (Forall (λ c, is_sep c = false) d) as Hdfree.
  { apply (lower_sep_free d (str "daun") Hd).
    repeat constructor. }
  assert (∃ tail, split_seps (d ++ seps ++ p ++ rest) = d :: p :: tail)
    as [tail Hsplit].
  { unfold split_seps. rewrite split_aux_token by done.
    destruct seps as [|s seps]; [done|].
    apply Forall_cons in Hallsep as [Hs Hallsep].
    simpl. rewrite Hs, app_nil_r, reverse_involutive.
    rewrite split_aux_run by done. rewrite split_aux_token by done.
    rewrite app_nil_r.
    destruct Hrest as [->|(c & rest' & -> & Hc)]; simpl.
    - rewrite reverse_involutive. eauto.
    - rewrite Hc, reverse_involutive. eauto. }
  unfold parsePlantFromLabel.
  destruct (d ++ seps ++ p ++ rest) as [|c0 l0] eqn:El.
  { by destruct d. }
  cbn [truthy negb]. rewrite Hsplit.
  rewrite filter_cons_True by (by destruct d).
  rewrite filter_cons_True by (by destruct p).
  by rewrite bool_decide_eq_true_2.
Qed.

Lemma parse_daun_pattern_witness :
  parsePlantFromLabel (str "DAUN" ++ str "_ " ++ str "Mangga" ++ str "_sehat")
  = Some (str "Mangga").
Proof.
  refine (parse_daun_pattern (str "DAUN") (str "_ ") (str "Mangga")
            (str "_sehat") eq_refl eq_refl _ _ _ _ _).
  - done.
  - repeat constructor.
  - done.
  - repeat constructor.
  - right. by exists "_"%char, (str "sehat").
Defined.

(* ------------------------------------------------------------------ *)
(** ** Comparisons of numbers *)

Lemma SFcompare_swap x y :
  SFcompare y x = CompOpp <$> SFcompare x y.
Proof.
  destruct x as [[]|[]| |[] mx ex], y as [[]|[]| |[] my ey]; simpl; try done;
    rewrite (Z.compare_antisym ex ey); destruct (ex ?= ey)%Z; simpl; try done;
    pose proof (Pos.compare_cont_antisym mx my Eq) as Hm; simpl in Hm;
    rewrite <-Hm; by rewrite ?CompOpp_involutive.
Qed.

Lemma SFcompare_refl x : x ≠ S754_nan → SFcompare x x = Some Eq.
Proof.
  destruct x as [[]|[]| |[] m e]; simpl; try done; intros _;
    by rewrite Z.compare_refl, Pos.compare_cont_refl.
Qed.

Lemma is_nan_spec (a : float) : is_nan a = false ↔ Prim2SF a ≠ S754_nan.
Proof.
  unfold is_nan. rewrite negb_false_iff, FloatAxioms.eqb_spec. unfold SFeqb. split.
  - intros H E. by rewrite E in H.
  - intros H. by rewrite SFcompare_refl.
Qed.




Lemma leb_not_ltb (a b : float) :
  (a <=? b)%float = true → (b <? a)%float = false.
Proof.
  rewrite FloatAxioms.ltb_spec, FloatAxioms.leb_spec. unfold SFltb, SFleb.
  rewrite (SFcompare_swap (Prim2SF a) (Prim2SF b)).
  by destruct (SFcompare _ _) as [[]|].
Qed.

Lemma ltb_not_nan (a b : float) :
  (a <? b)%float = true → is_nan a = false ∧ is_nan b = false.
Proof.
  rewrite !is_nan_spec, FloatAxioms.ltb_spec. unfold SFltb.
  destruct (Prim2SF a) as [[]|[]| |[] mx ex], (Prim2SF b) as [[]|[]| |[] my ey];
    simpl; done.
Qed.

Lemma leb_refl (a : float) : is_nan a = false → (a <=? a)%float = true.
Proof.
  rewrite is_nan_spec, FloatAxioms.leb_spec. unfold SFleb. intros Ha.
  by rewrite SFcompare_refl.
Qed.

Lemma above_100_positive (c : float) :
  (100 <? c)%float = true → (0 <? c)%float = true.
Proof.
  rewrite !FloatAxioms.ltb_spec. unfold SFltb.
  change (Prim2SF 0) with (S754_zero false).
  change (Prim2SF 100) with (S754_finite false 7036874417766400 (-46)).
  by destruct (Prim2SF c) as [[]|[]| |[] m e].
Qed.

(* ------------------------------------------------------------------ *)
(** ** The result panel *)

(** The three outcomes of the clamp. *)
Lemma safeConfidence_cases (c : float) :
  (safeConfidence c = 0%float
   ∧ (is_nan c = true ∨ (0 <? c)%float = false))
  ∨ (safeConfidence c = 100%float ∧ (100 <? c)%float = true)
  ∨ (safeConfidence c = c ∧ is_nan c = false
     ∧ (0 <? c)%float = true ∧ (100 <? c)%float = false).
Proof.
  unfold safeConfidence, Num.max, Num.min.
  destruct (is_nan c) eqn:Hnan; [by left; eauto|].
  change (is_nan 0) with false. change (is_nan 100) with false.
  change (Num.is_neg_zero 0) with false.
  change (Num.is_neg_zero 100) with false. cbn [orb].
  destruct (0 <? c)%float eqn:Hpos.
  - rewrite Hnan. destruct (100 <? c)%float eqn:Hhigh; [by right; left|].
    right; right. by destruct (c <? 100)%float.
  - left. split; [|by right].
    by destruct (c <? 0)%float.
Qed.


(** X7. The clamp is exact: a confidence in [(0, 100]] is shown as it
    is, one above 100 as 100, and one that is not positive, or NaN, as
    0. *)
Theorem safeConfidence_clamps (confidence : float) :
  ((0 <? confidence)%float = true → (confidence <=? 100)%float = true →
   safeConfidence confidence = confidence)
  ∧ ((100 <? confidence)%float = true → safeConfidence confidence = 100%float)
  ∧ ((confidence <=? 0)%float = true → safeConfidence confidence = 0%float)
  ∧ (is_nan confidence = true → safeConfidence confidence = 0%float).
Proof.
  destruct (safeConfidence_cases confidence)
    as [[Hr Hc]|[[Hr Hc]|(Hr & Hnan & Hpos & Hhigh)]]; rewrite Hr.
  - split_and!; try done.
    + intros Hpos Hle. destruct Hc as [Hc|Hc]; [|congruence].
      apply ltb_not_nan in Hpos as [_ ?]. congruence.
    + intros Hhigh. pose proof (above_100_positive _ Hhigh) as Hpos.
      destruct Hc as [Hc|Hc]; [|congruence].
      apply ltb_not_nan in Hpos as [_ ?]. congruence.
  - split_and!; try done.
    + intros _ Hle%leb_not_ltb. congruence.
    + intros Hle%leb_not_ltb.
      pose proof (above_100_positive _ Hc). congruence.
    + intros Hnan. apply ltb_not_nan in Hc as [_ ?]. congruence.
  - split_and!; try done; try congruence.
    intros Hle%leb_not_ltb. congruence.
Qed.

(** X8. Without a usable display name the label shown is the raw
    prediction with every underscore turned into a blank: same length,
    no underscore left, all other characters untouched; a display name
    with visible text is shown unchanged instead. *)
Theorem formatPredictionLabel_spec raw fallbackName :
  (∀ name, fallbackName = Some name → ascii_only name = true) →
  (has_text fallbackName = false →
   let shown := formatPredictionLabel raw fallbackName in
   length shown = length raw
   ∧ (∀ c, c ∈ shown → c ≠ "_"%char)
   ∧ ∀ i c, raw !! i = Some c →
            shown !! i = Some (if bool_decide (c = "_"%char)
                               then " "%char else c))
  ∧ (∀ name, fallbackName = Some name → has_text fallbackName = true →
             formatPredictionLabel raw fallbackName = name).
Proof.
  intros _. split.
  - intros Hno shown.
    assert (shown = underscores_to_spaces raw) as ->.
    { unfold shown, formatPredictionLabel. rewrite Hno.
      by destruct fallbackName. }
    unfold underscores_to_spaces. split_and!.
    + by rewrite length_fmap.
    + intros c' (c & -> & _)%list_elem_of_fmap. by case_bool_decide.
    + intros i c Hi. by rewrite list_lookup_fmap, Hi.
  - intros name -> Hyes. unfold formatPredictionLabel. by rewrite Hyes.
Qed.

Lemma formatPredictionLabel_spec_witness :
  has_text (Some (str "  ")) = false
  ∧ length (formatPredictionLabel (str "Daun_Apel_Busuk") (Some (str "  ")))
    = length (str "Daun_Apel_Busuk").
Proof.
  assert (∀ name, Some (str "  ") = Some name → ascii_only name = true)
    as Ha by (by intros name [= <-]).
  assert (has_text (Some (str "  ")) = false) as Hno by reflexivity.
  split; [exact Hno|].
  exact (proj1 (proj1 (formatPredictionLabel_spec (str "Daun_Apel_Busuk")
                         (Some (str "  ")) Ha) Hno)).
Defined.

Lemma has_text_trim s : has_text (Some s) = true → trim s ≠ [].
Proof.
  unfold has_text. intros [_ Hlen%Nat.ltb_lt]%andb_prop.
  intros E. rewrite E in Hlen. simpl in Hlen. lia.
Qed.

(** X9. The text of the information panel is never blank: whatever the
    (ASCII) record and the tab, [description] has a character that is
    not white space. *)
Theorem description_never_blank info activeTab :
  (∀ text, info_field info activeTab = Some text → ascii_only text = true) →
  trim (description info activeTab) ≠ []
  ∧ description info activeTab ≠ [].
Proof.
  intros _.
  assert (trim (description info activeTab) ≠ []) as Ht.
  { unfold description.
    destruct (info_field info activeTab) as [text|] eqn:Hf; [|done].
    destruct (has_text (Some text)) eqn:Hh; [|done].
    by apply has_text_trim. }
  split; [done|]. intros E. by rewrite E in Ht.
Qed.

Lemma description_never_blank_witness :
  description (Some (mkInfo None (Some (str "   ")) None None None)) Deskripsi
  ≠ [].
Proof.
  refine (proj2 (description_never_blank
            (Some (mkInfo None (Some (str "   ")) None None None))
            Deskripsi _)).
  by intros text [= <-].
Defined.

(* ------------------------------------------------------------------ *)
(** ** The upload page *)

Lemma validateAndStoreFile_file candidate s f :
  file (validateAndStoreFile candidate s) = Some f →
  file s = Some f ∨ (f = candidate ∧ acceptable f).
Proof.
  unfold validateAndStoreFile. case_bool_decide as Ht; simpl; [|by left].
  destruct (Z.ltb_spec MAX_FILE_SIZE_BYTES (file_size candidate)) as [|Hs];
    simpl; [by left|].
  intros [= <-]. right. split; [done|]. split; [done|].
  unfold MAX_FILE_SIZE_BYTES, MAX_FILE_SIZE_MB in Hs. lia.
Qed.

Lemma step_file s e f :
  file (step s e) = Some f →
  file s = Some f ∨ acceptable f.
Proof.
  destruct e as [files|files| | | |data|message|]; simpl.
  - destruct files as [[|first files]|]; simpl; [by left| |by left].
    intros [?|[_ ?]]%validateAndStoreFile_file; auto.
  - unfold handleDrop.
    destruct files as [[|first files]|]; simpl; [by left| |by left].
    intros [?|[_ ?]]%validateAndStoreFile_file; auto.
  - by left.
  - by left.
  - unfold handleSubmit. destruct (file s); simpl; by left.
  - by left.
  - by left.
  - done.
Qed.

Lemma run_file events f : file (run events) = Some f → acceptable f.
Proof.
  unfold run. induction events as [|e events IH] using rev_ind; [done|].
  rewrite foldl_snoc. intros [?|?]%step_file; auto.
Qed.

(** X10. Whatever the sequence of selections, drops, submissions,
    answers and resets, the file the page holds has an accepted MIME
    type and at most 8 MiB, and so has every file handed to a prediction
    request; without a file no request is sent. *)
Theorem only_acceptable_files_sent events :
  let s := run events in
  (∀ f, file s = Some f → acceptable f)
  ∧ (∀ f, (handleSubmit s).2 = Some f → file s = Some f ∧ acceptable f)
  ∧ (file s = None → (handleSubmit s).2 = None).
Proof.
  intros s. split_and!.
  - intros f. apply run_file.
  - intros f. unfold handleSubmit.
    destruct (file s) as [g|] eqn:Hf; simpl; [|done].
    intros [= ->]. split; [done|]. by apply (run_file events).
  - intros Hf. unfold handleSubmit. by rewrite Hf.
Qed.

(* ------------------------------------------------------------------ *)
(** ** The size of the decoded grid *)

Lemma keeps_small_checked : all_between 1 256 keeps_small_check = true.
Proof. vm_compute. reflexivity. Qed.

Lemma long_side_checked :
  all_between 257 (largest_source - 256) long_side_check = true.
Proof. vm_compute. reflexivity. Qed.

Lemma targetSide_small side longest :
  1 ≤ side ≤ longest → longest ≤ 256 →
  (targetSide side longest =? Num.of_Z side)%float = true.
Proof.
  intros Hs Hl.
  pose proof (all_between_spec 1 256 _ longest keeps_small_checked) as Hc.
  unfold keeps_small_check in Hc.
  exact (all_between_spec 1 longest _ side (Hc ltac:(lia)) ltac:(lia)).
Qed.

(** X11. An image whose sides are both between 1 and 256 is not
    rescaled: the canvas gets exactly the size of the image. *)
Theorem small_image_keeps_size imgWidth imgHeight :
  1 ≤ imgWidth ≤ 256 → 1 ≤ imgHeight ≤ 256 →
  ((targetSize imgWidth imgHeight).1 =? Num.of_Z imgWidth)%float = true
  ∧ ((targetSize imgWidth imgHeight).2 =? Num.of_Z imgHeight)%float = true.
Proof.
  intros Hw Hh. unfold targetSize. cbn [fst snd].
  split; apply targetSide_small; lia.
Qed.

Lemma small_image_keeps_size_witness :
  ((targetSize 200 150).1 =? Num.of_Z 200)%float = true
  ∧ ((targetSize 200 150).2 =? Num.of_Z 150)%float = true.
Proof. apply small_image_keeps_size; lia. Defined.

(** X12. An image whose longer side is above 256 (and at most 16384) is
    scaled so that this side becomes exactly 256. *)
Theorem long_side_becomes_256 imgWidth imgHeight :
  1 ≤ imgWidth → 1 ≤ imgHeight →
  256 < Z.max imgWidth imgHeight ≤ largest_source →
  let t := targetSize imgWidth imgHeight in
  ((if Z.leb imgHeight imgWidth then t.1 else t.2) =? 256)%float = true.
Proof.
  intros Hw Hh Hmax t. unfold t, targetSize. cbn [fst snd].
  assert (long_side_check (Z.max imgWidth imgHeight) = true) as Hc.
  { apply (all_between_spec 257 (largest_source - 256) _ _ long_side_checked).
    unfold largest_source in *. lia. }
  unfold long_side_check in Hc.
  destruct (Z.leb_spec imgHeight imgWidth).
  - by rewrite Z.max_l in * by lia.
  - by rewrite Z.max_r in * by lia.
Qed.

Lemma long_side_becomes_256_witness :
  ((targetSize 4000 3000).1 =? 256)%float = true.
Proof.
  refine (long_side_becomes_256 4000 3000 _ _ _); unfold largest_source; lia.
Defined.

(* ------------------------------------------------------------------ *)
(** ** More on the pixel pass and the guards *)




Lemma scan_loop_flagged bytes : ∀ idx st l,
  NoDup l →
  (∀ i, flag (greenMask st) i = true → i ∈ l) →
  (∀ i, i ∈ l → i < idx) →
  Z.of_nat (length l) ≤ greenCount st →
  ∃ l', NoDup l'
        ∧ (∀ i, flag (greenMask (scan_loop bytes idx st)) i = true → i ∈ l')
        ∧ Z.of_nat (length l') ≤ greenCount (scan_loop bytes idx st).
Proof.
  induction (Nat.lt_wf_0_projected length bytes) as [bytes _ IH].
  intros idx st l Hnd Hfl Hlt Hlen.
  destruct bytes as [|r [|g [|b [|a rest]]]]; simpl; eauto.
  set (green := isGreenish (toHSV (Num.of_Z r) (Num.of_Z g) (Num.of_Z b))).
  set (st1 := scan_pixel idx r g b st).
  assert (greenMask st1
          = if green then TypedArray.set (greenMask st) idx true
            else greenMask st) as Hm by reflexivity.
  assert (greenCount st1
          = if green then greenCount st + 1 else greenCount st) as Hc
    by reflexivity.
  destruct green.
  - apply (IH rest ltac:(simpl; lia) (idx + 1) st1 (idx :: l)).
    + apply NoDup_cons. split; [|done]. intros Hin. specialize (Hlt _ Hin). lia.
    + intros i. rewrite Hm. destruct (decide (i = idx)) as [->|Hne].
      * intros _. apply list_elem_of_here.
      * rewrite flag_mark_ne by done. intros Hi.
        apply list_elem_of_further. by apply Hfl.
    + intros i [->|Hin]%elem_of_cons; [lia|]. specialize (Hlt _ Hin). lia.
    + rewrite Hc. simpl length. lia.
  - apply (IH rest ltac:(simpl; lia) (idx + 1) st1 l); [done| | |].
    + by rewrite Hm.
    + intros i Hin. specialize (Hlt _ Hin). lia.
    + by rewrite Hc.
Qed.

(** X14. The largest component is never larger than the number of
    pixels counted as green: [0 <= largestComp <= greenCount], whatever
    the buffer and the grid size are. *)
Theorem largest_component_within_green img :
  let st := scan_image img in
  0 ≤ largestComp (width img) (height img) (greenMask st) (greenCount st)
    ≤ greenCount st.
Proof.
  intros st.
  destruct (scan_loop_flagged (data img) 0
              (scan_init (width img * height img)) [])
    as (l & Hnd & Hfl & Hlen).
  { constructor. }
  { intros i. simpl. by rewrite flag_make. }
  { by intros i ?%elem_of_nil. }
  { simpl. lia. }
  fold (scan_image img) in Hfl, Hlen. fold st in Hfl, Hlen.
  pose proof (largestComp_scan img) as Hlargest. cbv zeta in Hlargest.
  fold st in Hlargest.
  destruct Hlargest as [_ [(p & Hp & L & HL & Hmem & Hn)|[_ Hn]]].
  - rewrite <-Hn. split; [lia|].
    assert (length (idx (width img) <$> L) ≤ length l)%nat as Hle.
    { apply submseteq_length, NoDup_submseteq.
      - apply NoDup_fmap_2_strong; [|done].
        intros q q' Hq Hq' Heq.
        apply (idx_inj (width img) (height img)); [| |done].
        + exact (proj1 (conn_masked _ _ _ p q (proj1 (Hmem q) Hq))).
        + exact (proj1 (conn_masked _ _ _ p q' (proj1 (Hmem q') Hq'))).
      - intros i (q & -> & Hq)%list_elem_of_fmap. apply Hfl.
        exact (proj2 (conn_masked _ _ _ p q (proj1 (Hmem q) Hq))). }
    rewrite length_fmap in Hle. lia.
  - rewrite Hn. split; [done|]. apply (scan_count _ (scan_image_ok img)).
Qed.

Lemma sum_permutation (l k : list Z) :
  l ≡ₚ k → foldr Z.add 0 l = foldr Z.add 0 k.
Proof. induction 1; simpl; lia. Qed.

Lemma foldl_sum (l : list Z) : ∀ a, foldl Z.add a l = a + foldr Z.add 0 l.
Proof. induction l as [|x l IH]; intros a; simpl; [lia|]. rewrite IH. lia. Qed.

Lemma sum_take (l : list Z) n :
  Forall (λ v, 0 ≤ v) l →
  0 ≤ foldr Z.add 0 (take n l) ≤ foldr Z.add 0 l.
Proof.
  intros Hl. revert n. induction Hl as [|x l Hx Hl IH]; intros [|n]; simpl.
  - lia.
  - lia.
  - specialize (IH 0%nat). rewrite take_0 in IH. simpl in IH. lia.
  - specialize (IH n). lia.
Qed.

Lemma sum_at_least_length (l : list Z) :
  Forall (λ v, 1 ≤ v) l → Z.of_nat (length l) ≤ foldr Z.add 0 l.
Proof. induction 1; simpl length; simpl foldr; lia. Qed.

Lemma total_bump (counts : gmap Z Z) code :
  total (<[code := default 0 (counts !! code) + 1]> counts) = total counts + 1.
Proof.
  unfold total. destruct (counts !! code) as [v|] eqn:Hv; simpl.
  - rewrite <-(insert_delete_eq counts code (v + 1)).
    rewrite (sum_permutation _ _
               (fmap_Permutation snd _ _
                  (map_to_list_insert (delete code counts) code (v + 1)
                     (lookup_delete_eq counts code)))).
    rewrite <-(sum_permutation _ _
                 (fmap_Permutation snd _ _
                    (map_to_list_delete counts code v Hv))).
    rewrite !fmap_cons. cbn [foldr snd]. lia.
  - rewrite (sum_permutation _ _
               (fmap_Permutation snd _ _
                  (map_to_list_insert counts code 1 Hv))).
    rewrite fmap_cons. cbn [foldr snd]. lia.
Qed.

Lemma scan_loop_counts (n : nat) : ∀ bytes idx st,
  length bytes = (4 * n)%nat →
  (∀ k v, paletteCounts st !! k = Some v → 1 ≤ v) →
  let st' := scan_loop bytes idx st in
  total (paletteCounts st') = total (paletteCounts st) + Z.of_nat n
  ∧ (∀ k v, paletteCounts st' !! k = Some v → 1 ≤ v)
  ∧ greenCount st ≤ greenCount st' ≤ greenCount st + Z.of_nat n.
Proof.
  induction n as [|n IH]; intros bytes idx st Hlen Hpos.
  { destruct bytes; [|done]. simpl. split_and!; [lia|done|lia|lia]. }
  destruct bytes as [|r [|g [|b [|a rest]]]]; try (simpl in Hlen; lia).
  cbn [scan_loop]. set (st1 := scan_pixel idx r g b st).
  assert (paletteCounts st1
          = <[paletteCode r g b :=
                default 0 (paletteCounts st !! paletteCode r g b) + 1]>
              (paletteCounts st)) as Hp by reflexivity.
  assert (greenCount st ≤ greenCount st1 ≤ greenCount st + 1) as Hc.
  { unfold st1, scan_pixel. simpl. destruct (isGreenish _); lia. }
  destruct (IH rest (idx + 1) st1) as (Ht & Hpos' & Hg).
  { simpl in Hlen. lia. }
  { intros k v. rewrite Hp.
    destruct (decide (k = paletteCode r g b)) as [->|Hne].
    - rewrite lookup_insert_eq. intros [= <-].
      destruct (paletteCounts st !! paletteCode r g b) as [v|] eqn:Hv;
        simpl; [|lia].
      specialize (Hpos _ _ Hv). lia.
    - rewrite lookup_insert_ne by done. apply Hpos. }
  cbn zeta. rewrite Ht, Hp, total_bump. split_and!; [lia|done|lia|lia].
Qed.

(** X15. On a buffer of four bytes per pixel the palette histogram
    accounts for every pixel exactly once: its counts are positive and
    add up to [width * height], so there are at most that many bins;
    the five largest counts together, and the green count, lie between
    0 and [width * height]. *)
Theorem histogram_counts_every_pixel img :
  well_formed img →
  let st := scan_image img in
  let pixels := width img * height img in
  total (paletteCounts st) = pixels
  ∧ (∀ code v, paletteCounts st !! code = Some v → 1 ≤ v)
  ∧ Z.of_nat (size (paletteCounts st)) ≤ pixels
  ∧ 0 ≤ sumTop (paletteCounts st) ≤ pixels
  ∧ 0 ≤ greenCount st ≤ pixels.
Proof.
  intros Hwf st pixels. unfold well_formed in Hwf. fold pixels in Hwf.
  destruct (scan_loop_counts (Z.to_nat pixels) (data img) 0 (scan_init pixels))
    as (Ht & Hpos & Hg).
  { lia. }
  { intros k v. simpl. by rewrite lookup_empty. }
  change (scan_loop (data img) 0 (scan_init pixels)) with st in Ht, Hpos, Hg.
  simpl in Ht, Hg. unfold total at 2 in Ht.
  rewrite map_to_list_empty in Ht. simpl in Ht.
  assert (Forall (λ v, 1 ≤ v) (map_to_list (paletteCounts st)).*2) as Hall.
  { apply Forall_forall. intros v ([k v'] & -> & Hkv)%list_elem_of_fmap.
    apply elem_of_map_to_list in Hkv. simpl. by apply (Hpos k). }
  assert (Z.of_nat (size (paletteCounts st)) ≤ total (paletteCounts st))
    as Hsize.
  { rewrite <-length_map_to_list, <-(length_fmap snd).
    apply sum_at_least_length, Hall. }
  assert (0 ≤ sumTop (paletteCounts st) ≤ total (paletteCounts st)) as Htop.
  { unfold sumTop. rewrite foldl_sum.
    pose proof (sum_take (merge_sort desc (map_to_list (paletteCounts st)).*2) 5)
      as Hs.
    rewrite (sum_permutation _ _ (merge_sort_Permutation desc _)) in Hs.
    fold (total (paletteCounts st)) in Hs.
    lapply Hs; [lia|].
    rewrite merge_sort_Permutation. eapply Forall_impl; [exact Hall|].
    simpl. lia. }
  split_and!; try done; lia.
Qed.

Lemma histogram_counts_every_pixel_witness :
  well_formed tiny ∧ total (paletteCounts (scan_image tiny)) = 1.
Proof.
  assert (well_formed tiny) as Hwf by reflexivity.
  split; [exact Hwf|].
  exact (proj1 (histogram_counts_every_pixel tiny Hwf)).
Defined.

Lemma pack_checked : all_between 0 4096 pack_check = true.
Proof. vm_compute. reflexivity. Qed.

Lemma nibble (v : Z) : 0 ≤ v < 256 → Z.land (Z.shiftr v 4) 15 = v `div` 16.
Proof.
  intros Hv. rewrite Z.shiftr_div_pow2 by lia.
  change 15 with (Z.ones 4). rewrite Z.land_ones by lia.
  change (2 ^ 4) with 16. apply Z.mod_small.
  split; [apply Z.div_pos; lia|apply Z.div_lt_upper_bound; lia].
Qed.

Lemma pack_spec pr pg pb :
  0 ≤ pr < 16 → 0 ≤ pg < 16 → 0 ≤ pb < 16 →
  Z.lor (Z.lor (Z.shiftl pr 8) (Z.shiftl pg 4)) pb = 256 * pr + 16 * pg + pb.
Proof.
  intros Hr Hg Hb.
  pose proof (all_between_spec 0 4096 pack_check (256 * pr + 16 * pg + pb)
                pack_checked ltac:(lia)) as Hn.
  unfold pack_check in Hn.
  assert ((256 * pr + 16 * pg + pb) `div` 256 = pr) as E1.
  { symmetry. apply (Z.div_unique _ 256 pr (16 * pg + pb)); lia. }
  assert ((256 * pr + 16 * pg + pb) `div` 16 = 16 * pr + pg) as E2.
  { symmetry. apply (Z.div_unique _ 16 (16 * pr + pg) pb); lia. }
  assert ((16 * pr + pg) `mod` 16 = pg) as E3.
  { symmetry. apply (Z.mod_unique _ 16 pr pg); lia. }
  assert ((256 * pr + 16 * pg + pb) `mod` 16 = pb) as E4.
  { symmetry. apply (Z.mod_unique _ 16 (16 * pr + pg) pb); lia. }
  rewrite E1, E2, E3, E4 in Hn. by apply Z.eqb_eq in Hn.
Qed.

Lemma paletteCode_bytes r g b :
  0 ≤ r < 256 → 0 ≤ g < 256 → 0 ≤ b < 256 →
  paletteCode r g b = 256 * (r `div` 16) + 16 * (g `div` 16) + b `div` 16.
Proof.
  intros Hr Hg Hb. unfold paletteCode. rewrite !nibble by done.
  assert (∀ v, 0 ≤ v < 256 → 0 ≤ v `div` 16 < 16) as Hn.
  { intros v Hv.
    split; [apply Z.div_pos; lia|apply Z.div_lt_upper_bound; lia]. }
  apply pack_spec; by apply Hn.
Qed.

(** X16. For colour bytes the palette code is the three-digit base-16
    number made of the top four bits of each channel: it lies between 0
    and 4095, and two pixels share a bin exactly when their channels
    agree in those bits. *)
Theorem palette_bins r g b r' g' b' :
  0 ≤ r < 256 → 0 ≤ g < 256 → 0 ≤ b < 256 →
  0 ≤ r' < 256 → 0 ≤ g' < 256 → 0 ≤ b' < 256 →
  paletteCode r g b = 256 * (r `div` 16) + 16 * (g `div` 16) + b `div` 16
  ∧ 0 ≤ paletteCode r g b < 4096
  ∧ (paletteCode r g b = paletteCode r' g' b'
     ↔ r `div` 16 = r' `div` 16 ∧ g `div` 16 = g' `div` 16
       ∧ b `div` 16 = b' `div` 16).
Proof.
  intros Hr Hg Hb Hr' Hg' Hb'.
  rewrite !paletteCode_bytes by done.
  assert (∀ v, 0 ≤ v < 256 → 0 ≤ v `div` 16 < 16) as Hn.
  { intros v Hv.
    split; [apply Z.div_pos; lia|apply Z.div_lt_upper_bound; lia]. }
  pose proof (Hn r Hr). pose proof (Hn g Hg). pose proof (Hn b Hb).
  pose proof (Hn r' Hr'). pose proof (Hn g' Hg'). pose proof (Hn b' Hb').
  split_and!; [done|lia|lia|]. split; [lia|]. intros (-> & -> & ->). done.
Qed.

Lemma palette_bins_witness :
  paletteCode 60 160 60 = paletteCode 63 175 48.
Proof.
  apply (palette_bins 60 160 60 63 175 48); try lia.
  split_and!; reflexivity.
Defined.





Lemma aspect_checked : all_between 1 256 aspect_check = true.
Proof. vm_compute. reflexivity. Qed.

Lemma aspect_exact img :
  decoder_dims img →
  (MAX_ASPECT <? aspect img)%float
  = (7 * Z.min (width img) (height img) <? Z.max (width img) (height img)).
Proof.
  intros [Hw Hh]. unfold maxDim in *.
  pose proof (all_between_spec 1 256 _ (Z.max (width img) (height img))
                aspect_checked ltac:(lia)) as H1.
  unfold aspect_check in H1.
  pose proof (all_between_spec 1 _ _ (Z.min (width img) (height img))
                H1 ltac:(lia)) as H2.
  cbv beta in H2. by apply eqb_prop in H2.
Qed.

Lemma decide_leaf_not_aspect F : decide_leaf F ≠ reject reason_aspect.
Proof.
  unfold decide_leaf, accept, reject.
  repeat case_match; simplify_eq; simpl;
    unfold reason_aspect, reason_fragmented, reason_not_leaf,
      reason_no_main_leaf, reason_single_color, reason_uniform,
      reason_palette, reason_hard_edges, reason_flat, reason_generic;
    discriminate.
Qed.

(** X18. On a decoded grid of at least 8000 pixels the aspect guard is
    exact: the image is rejected as too elongated precisely when its
    long side is more than seven times its short side. *)
Theorem aspect_guard_exact img :
  decoder_dims img → 8000 ≤ width img * height img →
  validateLeafImage (Normal img) = reject reason_aspect
  ↔ 7 * Z.min (width img) (height img) < Z.max (width img) (height img).
Proof.
  intros Hdims Hbig.
  unfold validateLeafImage, validate_body, MIN_AREA.
  rewrite (proj2 (Z.ltb_ge _ _) Hbig), (aspect_exact img Hdims).
  destruct (Z.ltb_spec (7 * Z.min (width img) (height img))
              (Z.max (width img) (height img))) as [Hlt|Hge].
  - done.
  - split; [|lia]. intros Hv. by apply decide_leaf_not_aspect in Hv.
Qed.

Lemma aspect_guard_exact_witness :
  validateLeafImage (Normal strip) = reject reason_aspect.
Proof.
  assert (decoder_dims strip) as Hdims
    by (unfold decoder_dims, maxDim; simpl; lia).
  assert (8000 ≤ width strip * height strip) as Hbig by (simpl; lia).
  apply (aspect_guard_exact strip Hdims Hbig). simpl. lia.
Defined.
